(** * Poly::Term and Poly::Polynomial (polynomial.h)

    A shallow embedding of the polynomial container of
    [Data-Structure/LinkList/polynomial/polynomial.h] and the properties of
    its term evaluation, merge-based addition, subtraction and insertion.

    - [double] is IEEE-754 binary64, as specified by the Standard Library's
      [SpecFloat] (53 bits of precision, [emax = 1024], one NaN).
    - [int] is a 32-bit signed integer, carried as a [Z] within
      [INT_MIN .. INT_MAX].
    - A [std::vector<Term>] is a [list Term]; the objects that own such
      vectors live in a store indexed by locations when aliasing matters. *)

From Stdlib Require Import ZArith Lia Bool.
From Stdlib Require Import Floats.SpecFloat.
From stdpp Require Import base option list sorting gmap.

Local Open Scope Z_scope.

(** ** The C++ scalar types *)

Module Double.

Definition prec : Z := 53.
Definition emax : Z := 1024.

Definition double : Type := spec_float.

Definition add : double -> double -> double := SFadd prec emax.
Definition mul : double -> double -> double := SFmul prec emax.
Definition neg : double -> double := SFopp.
Definition eqb : double -> double -> bool := SFeqb.
Definition ltb : double -> double -> bool := SFltb.
(** [a > b] is [b < a]; [a != b] is the negation of [a == b]. *)
Definition gtb (a b : double) : bool := ltb b a.
Definition neqb (a b : double) : bool := negb (eqb a b).

(** The literal [m * 2^e], rounded to nearest even. *)
Definition lit (m e : Z) : double := binary_normalize prec emax m e false.

End Double.

Abbreviation double := Double.double.

Definition INT_MIN : Z := - 2 ^ 31.
Definition INT_MAX : Z := 2 ^ 31 - 1.

Definition in_int (z : Z) : bool := (INT_MIN <=? z) && (z <=? INT_MAX).

(** Integral-to-floating conversion ([conv.fpint]): every [int] is exactly
    representable in a [double]; the conversion is IEEE's [convertFromInt]. *)
Definition int_to_double (z : Z) : double :=
  binary_normalize Double.prec Double.emax z 0 false.

Arguments int_to_double : simpl never.

(** The integer a finite [double] truncates to (fraction discarded, i.e.
    rounding toward zero). *)
Definition trunc (s : bool) (m : positive) (e : Z) : Z :=
  if 0 <=? e then cond_Zopp s (Zpos m) * 2 ^ e
  else Z.quot (cond_Zopp s (Zpos m)) (2 ^ (- e)).

(** Floating-to-integral conversion ([conv.fpint]): truncation; the behaviour
    is undefined when the truncated value is not representable in [int]
    (which includes the infinities and NaN): [None]. *)
Definition double_to_int (d : double) : option Z :=
  match d with
  | S754_zero _ => Some 0
  | S754_finite s m e =>
      let z := trunc s m e in if in_int z then Some z else None
  | S754_infinity _ | S754_nan => None
  end.

(** Whether a [double] has an integral value. *)
Definition is_integral (d : double) : bool :=
  match d with
  | S754_zero _ => true
  | S754_finite _ m e => (0 <=? e) || (Zpos m mod 2 ^ (- e) =? 0)
  | S754_infinity _ | S754_nan => false
  end.

(** ** Outcomes of a call

    A call returns a value, throws [std::invalid_argument], or has undefined
    behaviour (an unrepresentable floating-to-integral conversion, or the use
    of an object that does not exist). *)

Inductive outcome (A : Type) : Type :=
  | Ok (a : A)
  | Throw_invalid_argument
  | Undefined.

Arguments Ok {A} a.
Arguments Throw_invalid_argument {A}.
Arguments Undefined {A}.

#[global] Instance outcome_ret : MRet outcome := fun A a => Ok a.
#[global] Instance outcome_bind : MBind outcome := fun A B f m =>
  match m with
  | Ok a => f a
  | Throw_invalid_argument => Throw_invalid_argument
  | Undefined => Undefined
  end.

(** An implicit [double] -> [int] conversion at a call site. *)
Definition conv_int (d : double) : outcome Z :=
  match double_to_int d with
  | Some z => Ok z
  | None => Undefined
  end.

(** ** class Term *)

Record Term : Type := mkTerm { coef : double; exp : Z }.

(** [Term(double c = 0.f, int e = 0)] *)
Definition Term_new (c : double) (e : Z) : Term := mkTerm c e.

(** [double getCoef() const] and [double getExp() const]: the latter converts
    the [int] member to [double]. *)
Definition getCoef (t : Term) : double := coef t.
Definition getExp (t : Term) : double := int_to_double (exp t).

(** [void setCoef(int c) { coef = c; }] and [void setExp(int e)]. *)
Definition setCoef (c : Z) (t : Term) : Term := mkTerm (int_to_double c) (exp t).
Definition setExp (e : Z) (t : Term) : Term := mkTerm (coef t) e.

(** A call [t.setCoef(v)] with a [double] argument [v]: the argument is
    converted to the parameter type [int] first. *)
Definition setCoef_double (v : double) (t : Term) : outcome Term :=
  c ← conv_int v; mret (setCoef c t).

(** [Term::operator+] *)
Definition Term_add (t u : Term) : outcome Term :=
  if negb (exp t =? exp u) then Throw_invalid_argument
  else if Double.eqb (Double.add (coef t) (coef u)) (int_to_double 0)
       then Ok (Term_new (int_to_double 0) 0)
       else Ok (Term_new (Double.add (coef t) (coef u)) (exp t)).

(** [Term::operator-] *)
Definition Term_sub (t u : Term) : outcome Term :=
  Term_add t (Term_new (Double.neg (coef u)) (exp u)).

(** [Term::cal]: [for (int i = 0; i < exp; ++i) x *= x; return coef * x;].
    [cal_loop n i e x] runs the loop from counter [i], for at most [n]
    iterations. *)
Fixpoint cal_loop (n : nat) (i e : Z) (x : double) : double :=
  match n with
  | O => x
  | S n' => if i <? e then cal_loop n' (i + 1) e (Double.mul x x) else x
  end.

Definition Term_cal (t : Term) (x : double) : double :=
  Double.mul (coef t) (cal_loop (Z.to_nat (exp t)) 0 (exp t) x).

(** What one iteration of the loop of [Term::cal] does to [x]. *)
Definition square (x : double) : double := Double.mul x x.

(** [x] raised to the positive power [n] by binary exponentiation. *)
Definition dpow (x : double) (n : positive) : double :=
  Pos.iter_op Double.mul n x.

(** ** class Polynomial

    The member [poly], a [std::vector<Term>]. *)

Definition Polynomial : Type := list Term.

(** [std::sort] with the comparator [a.getExp() < b.getExp()].  The standard
    leaves the relative order of equivalent elements unspecified; this model
    is an insertion sort (which keeps that order). *)
Fixpoint sort_insert (t : Term) (l : list Term) : list Term :=
  match l with
  | [] => [t]
  | u :: l' =>
      if Double.ltb (getExp u) (getExp t) then u :: sort_insert t l'
      else t :: u :: l'
  end.

Definition sort_by_exp (l : list Term) : list Term :=
  foldr sort_insert [] l.

(** [Polynomial() = default] *)
Definition Polynomial_default : Polynomial := [].

(** [Polynomial(const std::initializer_list<Term> &)], and the two array
    constructors, which push every element back and sort likewise. *)
Definition Polynomial_new (l : list Term) : Polynomial := sort_by_exp l.

(** [Polynomial::operator+]: the main loop runs while both cursors are inside
    their vectors; the two trailing loops flush the vector that is left.
    [this] and [other] are what is left from each cursor on; the result is
    what is pushed back from here on, in order. *)
Fixpoint Polynomial_add (this : list Term) : list Term -> outcome (list Term) :=
  fix from_other (other : list Term) : outcome (list Term) :=
    match this, other with
    | [], _ => Ok other
    | _, [] => Ok this
    | t :: this', o :: other' =>
        if exp t <? exp o then
          r ← Polynomial_add this' other; mret (t :: r)
        else if exp t >? exp o then
          r ← from_other other'; mret (o :: r)
        else if Double.neqb (Double.add (coef t) (coef o)) (int_to_double 0) then
          s ← Term_add t o;
          r ← Polynomial_add this' other'; mret (s :: r)
        else Polynomial_add this' other'
    end.

(** The loop of [Polynomial::operator-] over its by-value parameter:
    [for (auto &t : other.poly) t.setCoef(-t.getCoef());] *)
Fixpoint negate_all (other : list Term) : outcome (list Term) :=
  match other with
  | [] => Ok []
  | t :: other' =>
      t' ← setCoef_double (Double.neg (getCoef t)) t;
      r ← negate_all other'; mret (t' :: r)
  end.

(** [Polynomial::operator-]: [other] is the callee's own copy. *)
Definition Polynomial_sub (this other : list Term) : outcome (list Term) :=
  other' ← negate_all other; Polynomial_add this other'.

(** [Polynomial::insert] *)
Fixpoint Polynomial_insert (t : Term) (poly : list Term) : outcome (list Term) :=
  match poly with
  | [] => Ok []
  | it :: rest =>
      if Double.eqb (getExp it) (getExp t) then
        it' ← setCoef_double (Double.add (getCoef it) (getCoef t)) it;
        mret (it' :: rest)
      else if Double.gtb (getExp it) (getExp t) then
        Ok (t :: it :: rest)
      else
        r ← Polynomial_insert t rest; mret (it :: r)
  end.

(** [Polynomial::cal] *)
Definition Polynomial_cal (poly : list Term) (x : double) : double :=
  fold_left (fun result t => Double.add result (Term_cal t x)) poly (int_to_double 0).

(** Some literals. *)
Definition d_half : double := Double.lit 1 (-1).
Definition d_quarter : double := Double.lit 1 (-2).

Definition d_one : double := int_to_double 1.
Definition d_two : double := int_to_double 2.
Definition d_three : double := int_to_double 3.

(** ** Objects in a store

    Each [Polynomial] object owns one vector; the store maps the location of
    an object to the contents of its [poly] member.  References (and [this])
    are locations, so that two operands may be the same object. *)

Definition loc : Type := positive.

Abbreviation store := (gmap loc (list Term)).

(** Construction of a new object holding [v]. *)
Definition alloc (v : list Term) (s : store) : loc * store :=
  let l := fresh (dom s) in (l, <[l := v]> s).

(** The range-for loop of [operator-] running on the object at [o], from
    index [i], for at most [n] elements: each element is overwritten in
    place through [setCoef]. *)
Fixpoint negate_in_place (n i : nat) (o : loc) (s : store) : outcome store :=
  match n with
  | O => Ok s
  | S n' =>
      match s !! o with
      | None => Undefined
      | Some v =>
          match v !! i with
          | None => Ok s
          | Some t =>
              t' ← setCoef_double (Double.neg (getCoef t)) t;
              negate_in_place n' (S i) o (<[o := <[i := t']> v]> s)
          end
      end
  end.

(** [this->operator+(other)] on objects: both vectors are read through
    [const] iterators, the local [result] is a new object, returned by
    value. *)
Definition call_add (this other : loc) (s : store) : outcome (loc * store) :=
  match s !! this, s !! other with
  | Some P, Some Q => R ← Polynomial_add P Q; mret (alloc R s)
  | _, _ => Undefined
  end.


(** ** The properties, as the specification words them *)

(** Ascending by exponent, one term per exponent at most, no coefficient
    that compares equal to zero. *)
Definition ascending (R : list Term) : Prop := Sorted Z.le (exp <$> R).
Definition strictly_ascending (R : list Term) : Prop := StronglySorted Z.lt (exp <$> R).
Definition unique_exponents (R : list Term) : Prop := NoDup (exp <$> R).
Definition nonzero (t : Term) : Prop := Double.eqb (coef t) (int_to_double 0) = false.
Definition no_zero_coefficient (R : list Term) : Prop := Forall nonzero R.

(** A copy of [Q] with every coefficient replaced by its exact negation. *)
Definition negated (Q : list Term) : list Term :=
  (fun t => mkTerm (Double.neg (coef t)) (exp t)) <$> Q.

(** [P.add(P.subtract(P))] *)
Definition add_sub_self (P : list Term) : outcome (list Term) :=
  D ← Polynomial_sub P P; Polynomial_add P D.

(** The three cases of [insert] as the specification words them: an equal
    exponent anywhere, else a greater exponent anywhere, else nothing. *)
Fixpoint increment_equal (t : Term) (P : list Term) : list Term :=
  match P with
  | [] => []
  | it :: rest =>
      if exp it =? exp t then mkTerm (Double.add (coef it) (coef t)) (exp it) :: rest
      else it :: increment_equal t rest
  end.

Fixpoint insert_before_greater (t : Term) (P : list Term) : list Term :=
  match P with
  | [] => []
  | it :: rest =>
      if exp it >? exp t then t :: it :: rest
      else it :: insert_before_greater t rest
  end.

Definition insert_spec (t : Term) (P : list Term) : list Term :=
  if existsb (fun it => exp it =? exp t) P then increment_equal t P
  else if existsb (fun it => exp it >? exp t) P then insert_before_greater t P
  else P.

(** A coefficient that is the [double] of an [int] whose negation is an
    [int] too. *)
Definition int_valued (d : double) : Prop :=
  exists z : Z, INT_MIN < z <= INT_MAX /\ d = int_to_double z.

(** The left shift that brings a non-zero integer of at most 52 bits to a
    53-bit mantissa (its [double] has that mantissa and the opposite
    exponent). *)
Definition norm_shift (m : positive) : positive :=
  Z.to_pos (53 - Zpos (digits2_pos m)).

(** The sequence that [operator+] pushes back: on a tie, [Term::operator+]
    is reached with equal exponents and a sum that is not zero, so it
    returns the sum term. *)
Fixpoint merge_terms (this : list Term) : list Term -> list Term :=
  fix from_other (other : list Term) : list Term :=
    match this, other with
    | [], _ => other
    | _, [] => this
    | t :: this', o :: other' =>
        if exp t <? exp o then t :: merge_terms this' other
        else if exp t >? exp o then o :: from_other other'
        else if Double.neqb (Double.add (coef t) (coef o)) (int_to_double 0)
             then mkTerm (Double.add (coef t) (coef o)) (exp t) :: merge_terms this' other'
             else merge_terms this' other'
    end.

(** What the loop of [operator-] leaves in place of a term [t] of the right
    operand: the same exponent, and the [double] of the [int] that [-coef]
    converts to. *)
Definition stored_negation (t t' : Term) : Prop :=
  exp t' = exp t /\
  exists z, double_to_int (Double.neg (coef t)) = Some z /\
            coef t' = int_to_double z.

(** Two terms that cancel in [operator+]: equal exponents and a sum that
    compares equal to zero. *)
Definition cancel (t t' : Term) : Prop :=
  exp t' = exp t /\
  Double.eqb (Double.add (coef t) (coef t')) (int_to_double 0) = true.

(** A sum of coefficients that is the [double] of an [int]. *)
Definition int_sum (a b : double) : Prop :=
  exists z : Z, in_int z = true /\ Double.add a b = int_to_double z.

(** [Polynomial::sort] with a comparator of the caller's (an insertion sort,
    as for the constructors). *)
Fixpoint sort_insert_with (cmp : Term -> Term -> bool) (t : Term) (l : list Term) : list Term :=
  match l with
  | [] => [t]
  | u :: l' =>
      if cmp u t then u :: sort_insert_with cmp t l'
      else t :: u :: l'
  end.

Definition Polynomial_sort (cmp : Term -> Term -> bool) (poly : list Term) : list Term :=
  foldr (sort_insert_with cmp) [] poly.

(** The default comparator of [Polynomial::sort], and a descending one. *)
Definition cmp_default (lhs rhs : Term) : bool := Double.ltb (getExp lhs) (getExp rhs).
Definition cmp_descending (lhs rhs : Term) : bool := Double.gtb (getExp lhs) (getExp rhs).

(** ** The rest of class Term *)

(** [operator==], [!=], [<], [>], [<=], [>=]: on the exponents alone. *)
Definition Term_eq (t u : Term) : bool := exp t =? exp u.
Definition Term_ne (t u : Term) : bool := negb (exp t =? exp u).
Definition Term_lt (t u : Term) : bool := exp t <? exp u.
Definition Term_gt (t u : Term) : bool := exp t >? exp u.
Definition Term_le (t u : Term) : bool := exp t <=? exp u.
Definition Term_ge (t u : Term) : bool := exp t >=? exp u.

(** A coefficient that is neither NaN nor an infinity. *)
Definition is_finite (d : double) : bool :=
  match d with
  | S754_zero _ | S754_finite _ _ _ => true
  | S754_infinity _ | S754_nan => false
  end.

(** ** The rest of class Polynomial *)

(** [empty()] and [size()] *)
Definition Polynomial_empty (poly : list Term) : bool :=
  match poly with [] => true | _ => false end.
Definition Polynomial_size (poly : list Term) : nat := length poly.

(** The coefficient a polynomial holds at exponent [e]: that of the first
    term with this exponent. *)
Definition coef_at (e : Z) (P : list Term) : option double :=
  coef <$> List.find (fun t => exp t =? e) P.

(** The coefficient of a sum at one exponent, from those of the operands:
    a coefficient present on one side only is kept, two coefficients are
    added, and the term is left out when the sum compares equal to zero. *)
Definition add_coef (a b : option double) : option double :=
  match a, b with
  | Some x, Some y =>
      if Double.neqb (Double.add x y) (int_to_double 0) then Some (Double.add x y) else None
  | Some x, None => Some x
  | None, Some y => Some y
  | None, None => None
  end.

(** A coefficient that is the [double] of a non-zero [int] whose negation is
    an [int] too. *)
Definition nonzero_int_valued (d : double) : Prop :=
  exists z : Z, z <> 0 /\ INT_MIN < z <= INT_MAX /\ d = int_to_double z.

(** [Polynomial &operator=(Polynomial other)] on objects: the parameter is
    copy-constructed from the argument (an lvalue), [std::swap] exchanges the
    two vectors, and the parameter is destroyed on return. *)
Definition call_assign (this arg : loc) (s : store) : outcome store :=
  match s !! arg with
  | None => Undefined
  | Some Q =>
      let '(other, s1) := alloc Q s in
      match s1 !! this with
      | None => Undefined
      | Some P => Ok (delete other (<[other := P]> (<[this := Q]> s1)))
      end
  end.

(** [Polynomial(Polynomial &&p) : poly(std::move(p.poly))]: the new object
    takes the vector, and the vector moved from is left empty. *)
Definition move_construct (src : loc) (s : store) : outcome (loc * store) :=
  match s !! src with
  | None => Undefined
  | Some Q => let '(n, s1) := alloc Q s in Ok (n, <[src := []]> s1)
  end.

(** [this->operator-(std::move(arg))]: the by-value parameter is
    move-constructed from the argument before the body runs. *)
Definition call_sub_rvalue (this arg : loc) (s : store) : outcome (loc * store) :=
  os ← move_construct arg s;
  match os.2 !! os.1 with
  | None => Undefined
  | Some Q =>
      s2 ← negate_in_place (length Q) 0 os.1 os.2;
      rs ← call_add this os.1 s2;
      mret (rs.1, delete os.1 rs.2)
  end.

(** ** class Polynomial_C<SIZE>

    The member [poly], a [std::array<Term, SIZE>]: a list of [SIZE] terms. *)

(** [Polynomial_C(const std::array<Term, SIZE> &arr) : poly(arr) { sort(); }] *)
Definition Polynomial_C_new (arr : list Term) : list Term := sort_by_exp arr.

(** [size()] and [operator[]]: indexing is unchecked, out of range it is
    undefined. *)
Definition Polynomial_C_size (poly : list Term) : nat := length poly.
Definition Polynomial_C_at (poly : list Term) (index : nat) : outcome Term :=
  match poly !! index with
  | Some t => Ok t
  | None => Undefined
  end.

(** [Polynomial_C::cal] *)
Definition Polynomial_C_cal (poly : list Term) (x : double) : double :=
  fold_left (fun result t => Double.add result (Term_cal t x)) poly (int_to_double 0).

(** ** What the conversions mean

    A finite [double] with sign [s], mantissa [m] and exponent [e] has the
    value [(-1)^s * m * 2^e].  Both sides of a comparison with an integer
    are scaled by [2 ^ max 0 (- e)], so that only integers are compared. *)

(** [z] is the value of [v] with its fractional part discarded: [z] has the
    sign of [v], and [|z| <= |v| < |z| + 1]. *)
Definition truncation_of (v : double) (z : Z) : Prop :=
  match v with
  | S754_zero _ => z = 0
  | S754_finite s m e =>
      z = cond_Zopp s (Z.abs z) /\
      Z.abs z * 2 ^ Z.max 0 (- e) <= Zpos m * 2 ^ Z.max 0 e
        < (Z.abs z + 1) * 2 ^ Z.max 0 (- e)
  | S754_infinity _ | S754_nan => False
  end.

(** The value of [v] is the integer [z]. *)
Definition value_is (v : double) (z : Z) : Prop :=
  match v with
  | S754_zero _ => z = 0
  | S754_finite s m e =>
      z = cond_Zopp s (Z.abs z) /\
      Z.abs z * 2 ^ Z.max 0 (- e) = Zpos m * 2 ^ Z.max 0 e
  | S754_infinity _ | S754_nan => False
  end.

(** A [double] whose truncation is an [int]: the values that convert. *)
Definition converts_to_int (v : double) : Prop :=
  exists z : Z, truncation_of v z /\ in_int z = true.

(** * Properties *)

(** ** Binary64 conversions *)

Section Conversions.

Lemma Zpos_iter_xO (m k : positive) :
  Zpos (Pos.iter xO m k) = Zpos m * 2 ^ Zpos k.
Proof.
  induction k as [|k IH] using Pos.peano_ind.
  - simpl. lia.
  - rewrite Pos.iter_succ, Pos2Z.inj_xO, IH, Pos2Z.inj_succ.
    rewrite Z.pow_succ_r by lia. lia.
Qed.

Lemma digits2_pos_iter_xO (m k : positive) :
  Zpos (digits2_pos (Pos.iter xO m k)) = Zpos (digits2_pos m) + Zpos k.
Proof.
  induction k as [|k IH] using Pos.peano_ind.
  - simpl. lia.
  - rewrite Pos.iter_succ. simpl digits2_pos. lia.
Qed.

Lemma digits2_pos_bounds (m : positive) :
  2 ^ (Zpos (digits2_pos m) - 1) <= Zpos m < 2 ^ Zpos (digits2_pos m).
Proof.
  induction m as [m IH|m IH|]; simpl digits2_pos.
  - rewrite Pos2Z.inj_succ. change (Zpos m~1) with (2 * Zpos m + 1).
    replace (Z.succ (Zpos (digits2_pos m)) - 1) with (Z.succ (Zpos (digits2_pos m) - 1)) by lia.
    rewrite !Z.pow_succ_r by lia. lia.
  - rewrite Pos2Z.inj_succ. change (Zpos m~0) with (2 * Zpos m).
    replace (Z.succ (Zpos (digits2_pos m)) - 1) with (Z.succ (Zpos (digits2_pos m) - 1)) by lia.
    rewrite !Z.pow_succ_r by lia. lia.
  - simpl. lia.
Qed.

Lemma digits2_pos_le (m : positive) (d : Z) :
  0 <= d -> Zpos m < 2 ^ d -> Zpos (digits2_pos m) <= d.
Proof.
  intros Hd Hm. destruct (Z_le_gt_dec (Zpos (digits2_pos m)) d) as [|Hgt]; [done|].
  pose proof (digits2_pos_bounds m) as [Hlo _].
  assert (2 ^ d <= 2 ^ (Zpos (digits2_pos m) - 1)) by (apply Z.pow_le_mono_r; lia).
  lia.
Qed.

Lemma binary_round_small (s : bool) (m : positive) :
  Zpos (digits2_pos m) <= 52 ->
  binary_round Double.prec Double.emax s m 0 =
  S754_finite s (Pos.iter xO m (norm_shift m)) (- Zpos (norm_shift m)).
Proof.
  intros Hd. unfold binary_round, norm_shift.
  assert (Hfexp : forall d, 0 < d <= 53 ->
            fexp Double.prec Double.emax d = d - 53).
  { intros d Hdd. unfold fexp, emin, Double.prec, Double.emax. lia. }
  rewrite Z.add_0_r, Hfexp by lia.
  unfold shl_align.
  destruct (Zpos (digits2_pos m) - 53 - 0) as [|q|q] eqn:Hq; try lia.
  assert (Hk : 53 - Zpos (digits2_pos m) = Zpos q) by lia.
  rewrite Hk. simpl Z.to_pos.
  change (@PosDef.Pos.iter) with (@Pos.iter).
  unfold binary_round_aux, shr_fexp. simpl Zdigits2.
  rewrite digits2_pos_iter_xO.
  replace (Zpos (digits2_pos m) + Zpos q + (Zpos (digits2_pos m) - 53))
    with (Zpos (digits2_pos m)) by lia.
  rewrite Hfexp by lia. rewrite Z.sub_diag.
  cbn [shr shr_m shr_record_of_loc loc_of_shr_record round_nearest_even Zdigits2].
  rewrite digits2_pos_iter_xO.
  replace (Zpos (digits2_pos m) + Zpos q + (Zpos (digits2_pos m) - 53))
    with (Zpos (digits2_pos m)) by lia.
  rewrite Hfexp by lia. rewrite Z.sub_diag.
  cbn [shr shr_m shr_record_of_loc].
  replace (Zpos (digits2_pos m) - 53) with (Zneg q) by lia.
  unfold Double.emax, Double.prec.
  destruct (Z.leb_spec (Zneg q) (1024 - 53)); [done | lia].
Qed.

Lemma norm_shift_pos (m : positive) :
  Zpos (digits2_pos m) <= 52 ->
  Zpos (norm_shift m) = 53 - Zpos (digits2_pos m).
Proof. intros Hd. unfold norm_shift. rewrite Z2Pos.id; lia. Qed.

Lemma in_int_bounds (z : Z) : in_int z = true <-> INT_MIN <= z <= INT_MAX.
Proof. unfold in_int. rewrite andb_true_iff, !Z.leb_le. tauto. Qed.

Lemma int_digits (m : positive) :
  Zpos m <= 2 ^ 31 -> Zpos (digits2_pos m) <= 52.
Proof.
  intros Hm. enough (Zpos (digits2_pos m) <= 32) by lia.
  apply digits2_pos_le; lia.
Qed.

(** The [double] of an [int], case by case. *)
Lemma int_to_double_zero : int_to_double 0 = S754_zero false.
Proof. reflexivity. Qed.

Lemma int_to_double_pos (m : positive) :
  Zpos m <= 2 ^ 31 ->
  int_to_double (Zpos m) =
  S754_finite false (Pos.iter xO m (norm_shift m)) (- Zpos (norm_shift m)).
Proof. intros Hm. apply binary_round_small, int_digits, Hm. Qed.

Lemma int_to_double_neg (m : positive) :
  Zpos m <= 2 ^ 31 ->
  int_to_double (Zneg m) =
  S754_finite true (Pos.iter xO m (norm_shift m)) (- Zpos (norm_shift m)).
Proof. intros Hm. apply binary_round_small, int_digits, Hm. Qed.

Lemma trunc_shifted (s : bool) (m k : positive) :
  trunc s (Pos.iter xO m k) (- Zpos k) = cond_Zopp s (Zpos m).
Proof.
  unfold trunc. simpl (0 <=? _). rewrite Zpos_iter_xO, Z.opp_involutive.
  assert (2 ^ Zpos k <> 0) by (apply Z.pow_nonzero; lia).
  destruct s; simpl cond_Zopp.
  - rewrite <- Z.mul_opp_l, Z.quot_mul by done. done.
  - rewrite Z.quot_mul by done. done.
Qed.

(** Converting an [int] to [double] and back gives the [int]. *)
Lemma double_to_int_to_double (z : Z) :
  in_int z = true -> double_to_int (int_to_double z) = Some z.
Proof.
  intros Hz. pose proof Hz as Hb. apply in_int_bounds in Hb.
  unfold INT_MIN, INT_MAX in Hb.
  destruct z as [|m|m].
  - done.
  - rewrite int_to_double_pos by lia. unfold double_to_int.
    rewrite trunc_shifted. simpl cond_Zopp. by rewrite Hz.
  - rewrite int_to_double_neg by lia. unfold double_to_int.
    rewrite trunc_shifted. change (cond_Zopp true (Zpos m)) with (Zneg m).
    by rewrite Hz.
Qed.

(** The [double] of an [int] has an integral value. *)
Lemma is_integral_int_to_double (z : Z) :
  in_int z = true -> is_integral (int_to_double z) = true.
Proof.
  intros Hz. apply in_int_bounds in Hz. unfold INT_MIN, INT_MAX in Hz.
  assert (Hshift : forall m k : positive,
            (Zpos (Pos.iter xO m k) mod 2 ^ (- - Zpos k) =? 0) = true).
  { intros m k. rewrite Zpos_iter_xO, Z.opp_involutive.
    rewrite Z.mod_mul by (apply Z.pow_nonzero; lia). done. }
  destruct z as [|m|m].
  - done.
  - rewrite int_to_double_pos by lia. unfold is_integral.
    rewrite Hshift. apply orb_true_r.
  - rewrite int_to_double_neg by lia. unfold is_integral.
    rewrite Hshift. apply orb_true_r.
Qed.

Lemma is_integral_neg (d : double) :
  is_integral (Double.neg d) = is_integral d.
Proof. by destruct d. Qed.

(** Negation of the [double] of a non-zero [int]. *)
Lemma neg_int_to_double (z : Z) :
  z <> 0 -> - 2 ^ 31 <= z <= 2 ^ 31 ->
  Double.neg (int_to_double z) = int_to_double (- z).
Proof.
  intros Hnz Hz. destruct z as [|m|m]; [done| |].
  - rewrite int_to_double_pos by lia. change (- Zpos m) with (Zneg m).
    rewrite int_to_double_neg by lia. done.
  - rewrite int_to_double_neg by lia. change (- Zneg m) with (Zpos m).
    rewrite int_to_double_pos by lia. done.
Qed.

(** Comparing the [double]s of two [int]s compares the [int]s. *)
Lemma compare_shifted (p q : positive) :
  Zpos p <= 2 ^ 31 -> Zpos q <= 2 ^ 31 ->
  match - Zpos (norm_shift p) ?= - Zpos (norm_shift q) with
  | Lt => Lt
  | Gt => Gt
  | Eq => Pos.compare_cont Eq (Pos.iter xO p (norm_shift p))
                              (Pos.iter xO q (norm_shift q))
  end = (p ?= q)%positive.
Proof.
  intros Hp Hq.
  pose proof (int_digits p Hp) as Hdp. pose proof (int_digits q Hq) as Hdq.
  pose proof (norm_shift_pos p Hdp) as Hkp.
  pose proof (norm_shift_pos q Hdq) as Hkq.
  pose proof (digits2_pos_bounds p) as [Hplo Hphi].
  pose proof (digits2_pos_bounds q) as [Hqlo Hqhi].
  symmetry.
  destruct (Z.compare_spec (- Zpos (norm_shift p)) (- Zpos (norm_shift q)))
    as [Heq|Hlt|Hgt].
  - assert (Hk : norm_shift p = norm_shift q) by lia. rewrite Hk.
    change (Pos.compare_cont Eq ?a ?b) with (Zpos a ?= Zpos b).
    rewrite !Zpos_iter_xO. change (p ?= q)%positive with (Zpos p ?= Zpos q).
    apply Zmult_compare_compat_r. lia.
  - apply Pos.compare_lt_iff.
    assert (2 ^ Zpos (digits2_pos p) <= 2 ^ (Zpos (digits2_pos q) - 1))
      by (apply Z.pow_le_mono_r; lia).
    lia.
  - apply Pos.compare_gt_iff.
    assert (2 ^ Zpos (digits2_pos q) <= 2 ^ (Zpos (digits2_pos p) - 1))
      by (apply Z.pow_le_mono_r; lia).
    lia.
Qed.

Lemma compare_int_to_double (a b : Z) :
  in_int a = true -> in_int b = true ->
  SFcompare (int_to_double a) (int_to_double b) = Some (a ?= b).
Proof.
  intros Ha Hb. apply in_int_bounds in Ha, Hb. unfold INT_MIN, INT_MAX in *.
  destruct a as [|p|p], b as [|q|q];
    rewrite ?int_to_double_zero, ?int_to_double_pos, ?int_to_double_neg by lia;
    try reflexivity.
  - cbn [SFcompare]. f_equal.
    change (@PosDef.Pos.compare_cont) with (@Pos.compare_cont).
    apply compare_shifted; lia.
  - cbn [SFcompare]. f_equal.
    change (@PosDef.Pos.compare_cont) with (@Pos.compare_cont).
    change (Zneg p ?= Zneg q) with (CompOpp (p ?= q)%positive).
    rewrite <- (compare_shifted p q) by lia.
    by destruct (- Zpos (norm_shift p) ?= - Zpos (norm_shift q)).
Qed.

Lemma eqb_int_to_double (a b : Z) :
  in_int a = true -> in_int b = true ->
  Double.eqb (int_to_double a) (int_to_double b) = (a =? b).
Proof.
  intros Ha Hb. unfold Double.eqb, SFeqb.
  rewrite compare_int_to_double by done.
  destruct (Z.compare_spec a b), (Z.eqb_spec a b); done || lia.
Qed.

Lemma ltb_int_to_double (a b : Z) :
  in_int a = true -> in_int b = true ->
  Double.ltb (int_to_double a) (int_to_double b) = (a <? b).
Proof.
  intros Ha Hb. unfold Double.ltb, SFltb, Z.ltb.
  rewrite compare_int_to_double by done. by destruct (a ?= b).
Qed.

Lemma gtb_int_to_double (a b : Z) :
  in_int a = true -> in_int b = true ->
  Double.gtb (int_to_double a) (int_to_double b) = (a >? b).
Proof.
  intros Ha Hb. unfold Double.gtb.
  rewrite ltb_int_to_double by done. by rewrite Z.gtb_ltb.
Qed.

End Conversions.

(** ** Binary64 arithmetic *)

Section Arithmetic.

(** Addition is commutative (NaN is a single value here). *)
Lemma double_add_comm (x y : double) : Double.add x y = Double.add y x.
Proof.
  destruct x as [sx|sx| |sx mx ex], y as [sy|sy| |sy my ey];
    try reflexivity;
    try (by destruct sx, sy).
  unfold Double.add, SFadd. by rewrite Z.min_comm, Z.add_comm.
Qed.

(** A finite value and its negation add up to [+0]. *)
Lemma double_add_neg_finite (s : bool) (m : positive) (e : Z) :
  Double.add (S754_finite s m e) (Double.neg (S754_finite s m e)) = S754_zero false.
Proof.
  unfold Double.add, Double.neg, SFopp, SFadd.
  set (M := Zpos (fst (shl_align m e (Z.min e e)))).
  replace (cond_Zopp s M + cond_Zopp (negb s) M) with 0
    by (destruct s; simpl; lia).
  reflexivity.
Qed.

Lemma double_add_neg_int (z : Z) :
  in_int z = true -> z <> 0 ->
  Double.add (int_to_double z) (Double.neg (int_to_double z)) = S754_zero false.
Proof.
  intros Hz Hnz. apply in_int_bounds in Hz. unfold INT_MIN, INT_MAX in Hz.
  destruct z as [|m|m]; [done| |].
  - rewrite int_to_double_pos by lia. apply double_add_neg_finite.
  - rewrite int_to_double_neg by lia. apply double_add_neg_finite.
Qed.

End Arithmetic.

(** ** Term::cal *)

Section TermCal.

(** With enough iterations allowed, the loop squares [x] once for every
    counter value from [i] up to [e]. *)
Lemma cal_loop_squares (n : nat) :
  forall (i e : Z) (x : double),
    e - i <= Z.of_nat n ->
    cal_loop n i e x = Nat.iter (Z.to_nat (e - i)) square x.
Proof.
  induction n as [|n IH]; intros i e x Hn.
  - replace (Z.to_nat (e - i)) with 0%nat by lia. done.
  - simpl cal_loop. destruct (Z.ltb_spec i e) as [Hlt|Hge].
    + rewrite IH by lia.
      replace (Z.to_nat (e - i)) with (S (Z.to_nat (e - (i + 1)))) by lia.
      by rewrite Nat.iter_succ_r.
    + replace (Z.to_nat (e - i)) with 0%nat by lia. done.
Qed.

Lemma dpow_pow2 (n : nat) :
  forall x : double,
    dpow x (Z.to_pos (2 ^ Z.of_nat n)) = Nat.iter n square x.
Proof.
  induction n as [|n IH]; intros x.
  - done.
  - rewrite Nat2Z.inj_succ, Z.pow_succ_r by lia.
    assert (Hpos : 0 < 2 ^ Z.of_nat n) by (apply Z.pow_pos_nonneg; lia).
    destruct (2 ^ Z.of_nat n) as [|p|p] eqn:Hp; try lia.
    change (Z.to_pos (2 * Zpos p)) with (xO p).
    unfold dpow. simpl Pos.iter_op.
    change (Pos.iter_op Double.mul p (Double.mul x x)) with (dpow (square x) (Z.to_pos (Zpos p))).
    rewrite IH. by rewrite Nat.iter_succ_r.
Qed.

(** Binary exponentiation is the power when the multiplication is exact. *)
Lemma iter_op_mul_exact (n : positive) :
  forall x : Z, Pos.iter_op Z.mul n x = x ^ Zpos n.
Proof.
  induction n as [n IH|n IH|]; intros x; simpl Pos.iter_op.
  - rewrite IH. change (Zpos n~1) with (2 * Zpos n + 1).
    rewrite Z.pow_add_r, Z.pow_mul_r, Z.pow_1_r, Z.pow_2_r by lia. lia.
  - rewrite IH. change (Zpos n~0) with (2 * Zpos n).
    by rewrite Z.pow_mul_r, Z.pow_2_r by lia.
  - by rewrite Z.pow_1_r.
Qed.

End TermCal.

(** C1. For a term with coefficient [c] and exponent [e >= 0], [cal(x)]
    squares [x] once per iteration for [e] iterations and returns
    [c * x^(2^e)]; with [e = 0] that is [c * x]; [Term(3, 2)] at [x = 2]
    gives 48 and not the true-power value 12. *)
Theorem Term_cal_repeated_squaring (c x : double) (e : Z) :
  0 <= e ->
  Term_cal (Term_new c e) x = Double.mul c (Nat.iter (Z.to_nat e) square x) /\
  Term_cal (Term_new c e) x = Double.mul c (dpow x (Z.to_pos (2 ^ e))) /\
  (e = 0 -> Term_cal (Term_new c e) x = Double.mul c x) /\
  Term_cal (Term_new d_three 2) d_two = int_to_double 48 /\
  Double.mul d_three (dpow d_two 2) = int_to_double 12 /\
  Term_cal (Term_new d_three 2) d_two <> Double.mul d_three (dpow d_two 2).
Proof.
  intros He.
  assert (Hloop : Term_cal (Term_new c e) x
                  = Double.mul c (Nat.iter (Z.to_nat e) square x)).
  { unfold Term_cal, Term_new. simpl coef; simpl exp.
    rewrite cal_loop_squares by lia. by rewrite Z.sub_0_r. }
  split; [exact Hloop|]. split.
  - rewrite Hloop. rewrite <- (Z2Nat.id e) at 2 by done. by rewrite dpow_pow2.
  - split.
    + intros ->. exact Hloop.
    + repeat split; try (vm_compute; reflexivity). vm_compute. discriminate.
Qed.

Lemma Term_cal_repeated_squaring_witness :
  0 <= 2 /\ Term_cal (Term_new d_three 2) d_two
            = Double.mul d_three (Nat.iter (Z.to_nat 2) square d_two).
Proof.
  split; [lia|].
  exact (proj1 (Term_cal_repeated_squaring d_three d_two 2 ltac:(lia))).
Defined.

(** ** Polynomial::operator+ *)

Section Merge.

Lemma merge_terms_nil_r (P : list Term) : merge_terms P [] = P.
Proof. by destruct P. Qed.

Lemma Polynomial_add_nil_r (P : list Term) : Polynomial_add P [] = Ok P.
Proof. by destruct P. Qed.

(** [Term::operator+] on a tie that [operator+] does not skip. *)
Lemma Term_add_tie (t o : Term) :
  (exp t <? exp o) = false -> (exp t >? exp o) = false ->
  Double.neqb (Double.add (coef t) (coef o)) (int_to_double 0) = true ->
  Term_add t o = Ok (mkTerm (Double.add (coef t) (coef o)) (exp t)).
Proof.
  intros Hlt Hgt Hnz. unfold Term_add.
  assert (Heq : (exp t =? exp o) = true) by lia.
  rewrite Heq. simpl negb. unfold Double.neqb in Hnz.
  apply negb_true_iff in Hnz. by rewrite Hnz.
Qed.

(** [operator+] always returns, and returns the merged sequence. *)
Lemma Polynomial_add_merge (P : list Term) :
  forall Q, Polynomial_add P Q = Ok (merge_terms P Q).
Proof.
  induction P as [|t P IHP]; intros Q; [by destruct Q|].
  induction Q as [|o Q IHQ]; [done|].
  simpl Polynomial_add; simpl merge_terms.
  destruct (exp t <? exp o) eqn:Hlt.
  { by rewrite IHP. }
  destruct (exp t >? exp o) eqn:Hgt.
  { simpl in IHQ. by rewrite IHQ. }
  destruct (Double.neqb _ _) eqn:Hnz.
  - rewrite Term_add_tie by done. by rewrite IHP.
  - apply IHP.
Qed.

(** Every exponent of the result is an exponent of an operand. *)
Lemma merge_terms_Forall_exp (phi : Z -> Prop) (P : list Term) :
  forall Q,
    Forall (fun t => phi (exp t)) P -> Forall (fun t => phi (exp t)) Q ->
    Forall (fun t => phi (exp t)) (merge_terms P Q).
Proof.
  induction P as [|t P IHP]; intros Q HP HQ; [by destruct Q|].
  induction Q as [|o Q IHQ]; [done|].
  simpl merge_terms.
  pose proof (Forall_inv HP) as Ht. pose proof (Forall_inv_tail HP) as HP'.
  pose proof (Forall_inv HQ) as Ho. pose proof (Forall_inv_tail HQ) as HQ'.
  destruct (exp t <? exp o); [constructor; auto|].
  destruct (exp t >? exp o); [constructor; auto|].
  destruct (Double.neqb _ _); [constructor; auto|auto].
Qed.

Lemma merge_terms_nonzero (P : list Term) :
  forall Q,
    no_zero_coefficient P -> no_zero_coefficient Q ->
    no_zero_coefficient (merge_terms P Q).
Proof.
  unfold no_zero_coefficient.
  induction P as [|t P IHP]; intros Q HP HQ; [by destruct Q|].
  induction Q as [|o Q IHQ]; [done|].
  simpl merge_terms.
  pose proof (Forall_inv HP) as Ht. pose proof (Forall_inv_tail HP) as HP'.
  pose proof (Forall_inv HQ) as Ho. pose proof (Forall_inv_tail HQ) as HQ'.
  destruct (exp t <? exp o); [constructor; auto|].
  destruct (exp t >? exp o); [constructor; auto|].
  destruct (Double.neqb _ _) eqn:Hnz; [|auto].
  constructor; [|auto].
  unfold nonzero. simpl coef. unfold Double.neqb in Hnz.
  by apply negb_true_iff in Hnz.
Qed.

(** Sortedness of the result, for the strict and the non-strict order. *)
Section Order.
Variable R : Z -> Z -> Prop.
Hypothesis R_lt : forall a b, a < b -> R a b.
Hypothesis R_lt_trans : forall a b c, a < b -> R b c -> R a c.

Lemma merge_terms_sorted (P : list Term) :
  forall Q,
    StronglySorted R (exp <$> P) -> StronglySorted R (exp <$> Q) ->
    StronglySorted R (exp <$> merge_terms P Q).
Proof using R_lt R_lt_trans.
  induction P as [|t P IHP]; intros Q HP HQ; [by destruct Q|].
  induction Q as [|o Q IHQ]; [done|].
  simpl merge_terms.
  rewrite !fmap_cons in HP, HQ.
  apply StronglySorted_inv in HP as [HP' Ht].
  apply StronglySorted_inv in HQ as [HQ' Ho].
  rewrite Forall_fmap in Ht, Ho.
  destruct (Z.ltb_spec (exp t) (exp o)) as [Hlt|Hge].
  { rewrite fmap_cons. constructor.
    - apply IHP; [done|]. rewrite fmap_cons. by constructor; [|rewrite Forall_fmap].
    - rewrite Forall_fmap.
      apply (merge_terms_Forall_exp (R (exp t)) P (o :: Q)); [done|].
      constructor; [by apply R_lt|].
      eapply Forall_impl; [exact Ho|]. intros u Hu. by eapply R_lt_trans. }
  destruct (Z.gtb_spec (exp t) (exp o)) as [Hgt|Hle].
  { rewrite fmap_cons. constructor.
    - by apply IHQ.
    - rewrite Forall_fmap.
      apply (merge_terms_Forall_exp (R (exp o)) (t :: P) Q); [|done].
      constructor; [apply R_lt; lia|].
      eapply Forall_impl; [exact Ht|]. intros u Hu.
      eapply R_lt_trans; [|exact Hu]. lia. }
  assert (Heq : exp o = exp t) by lia.
  rewrite Heq in Ho.
  destruct (Double.neqb _ _); [|by apply IHP].
  rewrite fmap_cons. constructor; [by apply IHP|].
  rewrite Forall_fmap. by apply (merge_terms_Forall_exp (R (exp t)) P Q).
Qed.
End Order.

Lemma ascending_strongly (R : list Term) :
  ascending R <-> StronglySorted Z.le (exp <$> R).
Proof.
  unfold ascending. split.
  - apply Sorted_StronglySorted. intros a b c. apply Z.le_trans.
  - apply StronglySorted_Sorted.
Qed.

Lemma strictly_ascending_split (R : list Term) :
  strictly_ascending R <-> ascending R /\ unique_exponents R.
Proof.
  rewrite ascending_strongly.
  unfold strictly_ascending, unique_exponents.
  induction (exp <$> R) as [|a l IH].
  - split; [intros _; split; constructor | intros _; constructor].
  - split.
    + intros [Hl Ha]%StronglySorted_inv. apply IH in Hl as [Hs Hn].
      split.
      * constructor; [done|]. eapply Forall_impl; [exact Ha|]. intros; simpl in *; lia.
      * constructor; [|done]. intros Hin.
        rewrite Forall_forall in Ha. specialize (Ha _ Hin). lia.
    + intros [[Hs Ha]%StronglySorted_inv [Hnotin Hn]%NoDup_cons].
      constructor; [by apply IH|].
      rewrite Forall_forall in Ha |- *. intros b Hb.
      specialize (Ha _ Hb). assert (a <> b) by (intros ->; done). lia.
Qed.

Lemma merge_terms_ascending (P Q : list Term) :
  ascending P -> ascending Q -> ascending (merge_terms P Q).
Proof.
  rewrite !ascending_strongly. apply merge_terms_sorted; intros; lia.
Qed.

Lemma merge_terms_strictly_ascending (P Q : list Term) :
  strictly_ascending P -> strictly_ascending Q ->
  strictly_ascending (merge_terms P Q).
Proof. apply merge_terms_sorted; intros; lia. Qed.

End Merge.

(** C2 (as stated) fails: a polynomial built by the initializer-list
    constructor from two equal terms [Term(0, 1)], added to the empty
    polynomial, keeps both terms, so an exponent occurs twice (and with a
    zero coefficient). *)
Lemma Polynomial_add_not_canonical :
  let P := Polynomial_new [Term_new (int_to_double 0) 1; Term_new (int_to_double 0) 1] in
  let Q := Polynomial_default in
  ~ (exists R, Polynomial_add P Q = Ok R /\
               ascending R /\ unique_exponents R /\ no_zero_coefficient R).
Proof.
  intros P Q (R & HR & _ & Hu & _).
  vm_compute in HR. injection HR as <-.
  unfold unique_exponents in Hu. simpl in Hu.
  apply NoDup_cons in Hu as [Hnotin _]. apply Hnotin. left.
Qed.

(** C2 (amended). For polynomials [P] and [Q] that are sorted ascending by
    exponent (as every constructor leaves them), [P + Q] returns a polynomial
    that is sorted ascending; it has at most one term per exponent when [P]
    and [Q] have, and no zero coefficient when [P] and [Q] have none. *)
Theorem Polynomial_add_canonical (P Q : list Term) :
  ascending P -> ascending Q ->
  exists R, Polynomial_add P Q = Ok R /\
    ascending R /\
    (unique_exponents P -> unique_exponents Q -> unique_exponents R) /\
    (no_zero_coefficient P -> no_zero_coefficient Q -> no_zero_coefficient R).
Proof.
  intros HP HQ. exists (merge_terms P Q).
  split; [apply Polynomial_add_merge|].
  split; [by apply merge_terms_ascending|].
  split.
  - intros HuP HuQ.
    apply (strictly_ascending_split (merge_terms P Q)).
    apply merge_terms_strictly_ascending; by apply strictly_ascending_split.
  - apply merge_terms_nonzero.
Qed.

Lemma Polynomial_add_canonical_witness :
  let P := [Term_new d_two 0; Term_new d_three 1] in
  let Q := [Term_new (int_to_double (-3)) 1; Term_new (int_to_double 5) 2] in
  exists R, Polynomial_add P Q = Ok R /\
    ascending R /\
    (unique_exponents P -> unique_exponents Q -> unique_exponents R) /\
    (no_zero_coefficient P -> no_zero_coefficient Q -> no_zero_coefficient R).
Proof.
  apply Polynomial_add_canonical; unfold ascending; simpl;
    repeat constructor; lia.
Defined.

Section Commutativity.

Lemma merge_terms_comm (P : list Term) :
  forall Q, merge_terms P Q = merge_terms Q P.
Proof.
  induction P as [|t P IHP]; intros Q.
  { destruct Q; [done|]. by rewrite merge_terms_nil_r. }
  induction Q as [|o Q IHQ]; [done|].
  simpl merge_terms.
  rewrite (double_add_comm (coef o) (coef t)).
  destruct (Z.ltb_spec (exp t) (exp o)) as [Hlt|Hge].
  { destruct (Z.ltb_spec (exp o) (exp t)); [lia|].
    destruct (Z.gtb_spec (exp o) (exp t)); [|lia].
    f_equal. rewrite IHP. done. }
  destruct (Z.gtb_spec (exp t) (exp o)) as [Hgt|Hle].
  { destruct (Z.ltb_spec (exp o) (exp t)); [|lia].
    f_equal. apply IHQ. }
  destruct (Z.ltb_spec (exp o) (exp t)); [lia|].
  destruct (Z.gtb_spec (exp o) (exp t)); [lia|].
  replace (exp o) with (exp t) by lia.
  rewrite IHP. done.
Qed.

End Commutativity.

(** C6. Addition is commutative: [P + Q] and [Q + P] return the same term
    sequence. *)
Theorem Polynomial_add_comm (P Q : list Term) :
  Polynomial_add P Q = Polynomial_add Q P.
Proof. by rewrite !Polynomial_add_merge, merge_terms_comm. Qed.

(** C8. Neither [P + Q] nor [P - Q] throws [std::invalid_argument]:
    [Term::operator+], which throws exactly when the exponents of its
    operands differ, is only reached on equal exponents. *)
Theorem Polynomial_add_sub_no_throw (P Q : list Term) :
  Polynomial_add P Q <> Throw_invalid_argument /\
  Polynomial_sub P Q <> Throw_invalid_argument /\
  (forall t u, Term_add t u = Throw_invalid_argument <-> exp t <> exp u).
Proof.
  split; [|split].
  - by rewrite Polynomial_add_merge.
  - unfold Polynomial_sub.
    assert (Hneg : negate_all Q <> Throw_invalid_argument).
    { induction Q as [|t Q IH]; [done|]. simpl negate_all.
      unfold setCoef_double, conv_int.
      destruct (double_to_int _); [|done]. simpl.
      destruct (negate_all Q); done. }
    destruct (negate_all Q) as [Q'| |]; [|done|done].
    simpl. by rewrite Polynomial_add_merge.
  - intros t u. unfold Term_add.
    destruct (Z.eqb_spec (exp t) (exp u)) as [Heq|Hne]; simpl.
    + by destruct (Double.eqb _ _).
    + done.
Qed.

(** ** Polynomial::operator- *)

Section Subtraction.

Lemma setCoef_double_eq (v : double) (t : Term) :
  setCoef_double v t =
  match double_to_int v with
  | Some z => Ok (mkTerm (int_to_double z) (exp t))
  | None => Undefined
  end.
Proof. unfold setCoef_double, conv_int. by destruct (double_to_int v). Qed.

(** The magnitude of the truncated value is the integer part of the
    magnitude, and the sign is kept. *)
Lemma trunc_fraction (s : bool) (m : positive) (e : Z) :
  e < 0 ->
  trunc s m e = cond_Zopp s (Zpos m / 2 ^ (- e)).
Proof.
  intros He. unfold trunc. destruct (Z.leb_spec 0 e); [lia|].
  assert (0 < 2 ^ (- e)) by (apply Z.pow_pos_nonneg; lia).
  destruct s; simpl cond_Zopp.
  - rewrite Z.quot_opp_l by lia. by rewrite Z.quot_div_nonneg by lia.
  - by rewrite Z.quot_div_nonneg by lia.
Qed.

(** The copy that the loop of [operator-] leaves. *)
Lemma negate_all_stored (Q : list Term) :
  forall Q', negate_all Q = Ok Q' <-> Forall2 stored_negation Q Q'.
Proof.
  induction Q as [|t Q IH]; intros Q'.
  - simpl. split.
    + intros [= <-]. constructor.
    + intros H. by inversion H.
  - simpl negate_all. rewrite setCoef_double_eq. unfold getCoef. split.
    + destruct (double_to_int (Double.neg (coef t))) as [z|] eqn:Hz; [|done].
      simpl. destruct (negate_all Q) as [Q0| |] eqn:HQ; [|done|done].
      simpl. intros [= <-]. constructor; [|by apply IH].
      split; [done|]. by exists z.
    + intros H. inversion H as [|? t' ? Q0 [Hexp (z & Hz & Hc)] HQ0]; subst.
      rewrite Hz. simpl. apply IH in HQ0. rewrite HQ0. simpl.
      destruct t' as [c' e']. simpl in *. by subst.
Qed.

(** A value that is not integral is not what [setCoef] stores. *)
Lemma stored_not_fraction (v : double) (z : Z) :
  double_to_int v = Some z -> is_integral v = false -> int_to_double z <> v.
Proof.
  intros Hz Hv Heq.
  assert (Hin : in_int z = true).
  { destruct v as [s|s| |s m e]; simpl in Hz; try done.
    destruct (in_int (trunc s m e)) eqn:Hin; [|done]. by injection Hz as <-. }
  apply is_integral_int_to_double in Hin. congruence.
Qed.

(** Negating an integer coefficient through [setCoef] gives a coefficient
    that cancels it. *)
Lemma int_valued_cancel (t : Term) :
  int_valued (coef t) ->
  exists t', setCoef_double (Double.neg (getCoef t)) t = Ok t' /\ cancel t t'.
Proof.
  intros (z & Hz & Hc). unfold getCoef. rewrite setCoef_double_eq, Hc.
  unfold INT_MIN, INT_MAX in Hz.
  destruct (Z.eq_dec z 0) as [->|Hnz].
  - eexists. split; [reflexivity|]. split; [done|]. simpl coef. by rewrite Hc.
  - rewrite neg_int_to_double by lia.
    assert (Hin : in_int z = true) by (apply in_int_bounds; unfold INT_MIN, INT_MAX; lia).
    assert (Hin' : in_int (- z) = true) by (apply in_int_bounds; unfold INT_MIN, INT_MAX; lia).
    rewrite double_to_int_to_double by done.
    eexists. split; [reflexivity|]. split; [done|]. simpl coef.
    rewrite Hc, <- neg_int_to_double by lia.
    by rewrite double_add_neg_int.
Qed.

Lemma negate_all_cancel (P : list Term) :
  Forall (fun t => int_valued (coef t)) P ->
  exists P', negate_all P = Ok P' /\ Forall2 cancel P P'.
Proof.
  induction 1 as [|t P Ht _ (P' & HP' & Hc)].
  - exists []. split; [done|constructor].
  - destruct (int_valued_cancel t Ht) as (t' & Ht' & Hct).
    exists (t' :: P'). split; [|by constructor].
    simpl negate_all. rewrite Ht'. simpl. by rewrite HP'.
Qed.

Lemma merge_terms_cancel (P P' : list Term) :
  Forall2 cancel P P' -> merge_terms P P' = [].
Proof.
  induction 1 as [|t t' P P' [Hexp Hsum] _ IH]; [done|].
  simpl merge_terms. rewrite Hexp.
  rewrite Z.ltb_irrefl. rewrite Z.gtb_ltb, Z.ltb_irrefl.
  unfold Double.neqb. by rewrite Hsum.
Qed.

End Subtraction.

(** C3 (the code falls short). With [P = Q = { Term(0.5, 1) }], [P - Q]
    leaves the term [0.5 x^1] in place, whereas [P] plus the exactly negated
    copy of [Q] is the empty polynomial. *)
Theorem Polynomial_sub_not_exact_negation :
  let P := Polynomial_new [Term_new d_half 1] in
  let Q := Polynomial_new [Term_new d_half 1] in
  Polynomial_sub P Q = Ok [Term_new d_half 1] /\
  Polynomial_add P (negated Q) = Ok [] /\
  Polynomial_sub P Q <> Polynomial_add P (negated Q).
Proof.
  repeat split; try (vm_compute; reflexivity). vm_compute. discriminate.
Qed.

(** *** The conversion to [int] is truncation *)

Section Truncation.

Lemma pow2_pos (k : Z) : 0 < 2 ^ Z.max 0 k.
Proof. apply Z.pow_pos_nonneg; lia. Qed.

Lemma abs_cond_Zopp (s : bool) (k : Z) : 0 <= k -> Z.abs (cond_Zopp s k) = k.
Proof. intros Hk. destruct s; simpl; lia. Qed.

(** [trunc] computes the truncation. *)
Lemma trunc_truncation_of (s : bool) (m : positive) (e : Z) :
  truncation_of (S754_finite s m e) (trunc s m e).
Proof.
  simpl. destruct (Z.le_gt_cases 0 e) as [He|He].
  - unfold trunc. destruct (Z.leb_spec 0 e); [|lia].
    assert (0 < 2 ^ e) by (apply Z.pow_pos_nonneg; lia).
    replace (cond_Zopp s (Zpos m) * 2 ^ e) with (cond_Zopp s (Zpos m * 2 ^ e))
      by (destruct s; simpl; lia).
    rewrite abs_cond_Zopp by lia.
    replace (Z.max 0 (- e)) with 0 by lia. replace (Z.max 0 e) with e by lia.
    split; [done|]. rewrite Z.pow_0_r. lia.
  - rewrite trunc_fraction by done.
    assert (Hd : 0 < 2 ^ (- e)) by (apply Z.pow_pos_nonneg; lia).
    assert (0 <= Zpos m / 2 ^ (- e)) by (apply Z.div_pos; lia).
    rewrite abs_cond_Zopp by done.
    replace (Z.max 0 (- e)) with (- e) by lia. replace (Z.max 0 e) with 0 by lia.
    split; [done|]. rewrite Z.pow_0_r, Z.mul_1_r.
    pose proof (Z.mul_div_le (Zpos m) (2 ^ (- e)) Hd).
    pose proof (Z.mul_succ_div_gt (Zpos m) (2 ^ (- e)) Hd).
    lia.
Qed.

(** A value has one truncation. *)
Lemma truncation_of_unique (v : double) (z z' : Z) :
  truncation_of v z -> truncation_of v z' -> z = z'.
Proof.
  destruct v as [s|s| |s m e]; simpl; try done; [congruence|].
  intros [Hs [Hlo Hhi]] [Hs' [Hlo' Hhi']].
  pose proof (pow2_pos (- e)) as Hd.
  assert (Habs : Z.abs z = Z.abs z') by nia.
  rewrite Hs, Hs'. by rewrite Habs.
Qed.

(** The conversion is defined exactly on the values whose truncation is an
    [int], and gives that truncation. *)
Lemma double_to_int_truncation (v : double) (z : Z) :
  double_to_int v = Some z <-> truncation_of v z /\ in_int z = true.
Proof.
  split.
  - destruct v as [s|s| |s m e]; simpl double_to_int; try done.
    + by intros [= <-].
    + destruct (in_int (trunc s m e)) eqn:Hin; [|done].
      intros [= <-]. split; [apply trunc_truncation_of|done].
  - intros [Ht Hin]. destruct v as [s|s| |s m e]; simpl in Ht; try done.
    + by subst.
    + simpl double_to_int.
      assert (Hz : trunc s m e = z)
        by (apply (truncation_of_unique (S754_finite s m e));
            [apply trunc_truncation_of|done]).
      by rewrite Hz, Hin.
Qed.

Lemma double_to_int_undefined (v : double) :
  double_to_int v = None <-> ~ converts_to_int v.
Proof.
  split.
  - intros Hnone (z & Ht & Hin).
    assert (double_to_int v = Some z) by (by apply double_to_int_truncation).
    congruence.
  - intros Hno. destruct (double_to_int v) as [z|] eqn:Hz; [|done].
    exfalso. apply Hno. exists z. by apply double_to_int_truncation.
Qed.

(** The [double] of an [int] has exactly that value. *)
Lemma value_is_int_to_double (z : Z) :
  in_int z = true -> value_is (int_to_double z) z.
Proof.
  intros Hz. apply in_int_bounds in Hz. unfold INT_MIN, INT_MAX in Hz.
  assert (Hshift : forall (s : bool) (m : positive),
            value_is (S754_finite s (Pos.iter xO m (norm_shift m)) (- Zpos (norm_shift m)))
                     (cond_Zopp s (Zpos m))).
  { intros s m. simpl. rewrite abs_cond_Zopp by lia. split; [done|].
    rewrite Z.opp_involutive, Zpos_iter_xO.
    replace (Z.max 0 (Zpos (norm_shift m))) with (Zpos (norm_shift m)) by lia.
    replace (Z.max 0 (- Zpos (norm_shift m))) with 0 by lia.
    rewrite Z.pow_0_r. lia. }
  destruct z as [|m|m].
  - done.
  - rewrite int_to_double_pos by lia. apply (Hshift false).
  - rewrite int_to_double_neg by lia. apply (Hshift true).
Qed.

Lemma value_is_truncation (v : double) (z : Z) :
  value_is v z -> truncation_of v z.
Proof.
  destruct v as [s|s| |s m e]; simpl; try done.
  intros [Hs Heq]. split; [done|].
  pose proof (pow2_pos (- e)). lia.
Qed.

(** [is_integral] holds exactly when the value is its own truncation. *)
Lemma is_integral_value_is (v : double) (z : Z) :
  truncation_of v z -> (is_integral v = true <-> value_is v z).
Proof.
  destruct v as [s|s| |s m e]; simpl; try done.
  intros [Hs [Hlo Hhi]].
  destruct (Z.le_gt_cases 0 e) as [He|He].
  - destruct (Z.leb_spec 0 e); [|lia]. simpl.
    replace (Z.max 0 (- e)) with 0 in * by lia.
    rewrite Z.pow_0_r in *. split; [intros _; split; [done|lia]|done].
  - destruct (Z.leb_spec 0 e); [lia|]. simpl.
    replace (Z.max 0 (- e)) with (- e) in * by lia.
    replace (Z.max 0 e) with 0 in * by lia.
    rewrite Z.pow_0_r, Z.mul_1_r in *.
    assert (Hd : 0 < 2 ^ (- e)) by (apply Z.pow_pos_nonneg; lia).
    assert (Hmod : Zpos m mod 2 ^ (- e) = Zpos m - Z.abs z * 2 ^ (- e)).
    { symmetry. apply (Z.mod_unique_pos _ _ (Z.abs z)); lia. }
    rewrite Z.eqb_eq, Hmod. split.
    + intros H0. split; [done|lia].
    + intros [_ Heq]. lia.
Qed.

End Truncation.

(** C4 (as stated) fails for the values that [int] cannot take: with NaN,
    an infinity or [2^31] as argument, [t.setCoef(v)] has no truncation to
    store, and the conversion to the parameter type is undefined. *)
Lemma setCoef_not_every_double :
  let t := Term_new d_half 1 in
  (~ exists t', setCoef_double S754_nan t = Ok t') /\
  (forall z, ~ truncation_of S754_nan z) /\
  setCoef_double S754_nan t = Undefined /\
  setCoef_double (S754_infinity false) t = Undefined /\
  truncation_of (Double.lit 1 31) (2 ^ 31) /\
  in_int (2 ^ 31) = false /\
  setCoef_double (Double.lit 1 31) t = Undefined.
Proof.
  intros t. split; [by intros (t' & Ht')|]. split; [by intros z Hz|].
  split; [reflexivity|]. split; [reflexivity|].
  split; [|split; reflexivity].
  vm_compute. split; [reflexivity|]. split; discriminate || reflexivity.
Qed.

(** C4 (amended). For a [double] [v] whose truncation [z] (the value with
    the fractional part discarded) is an [int], and for no other [v], a call
    [t.setCoef(v)] is defined; it stores the [double] whose value is exactly
    [z], which is [v] only if [v] is integral.  So [operator-], whenever it
    returns, leaves for each term of the right operand with coefficient [c]
    the truncation of [-c], which is not [-c] when [c] is not integral. *)
Theorem setCoef_truncates (t : Term) (v : double) (z : Z) :
  truncation_of v z -> in_int z = true ->
  setCoef_double v t = Ok (mkTerm (int_to_double z) (exp t)) /\
  value_is (int_to_double z) z /\
  (forall z', truncation_of v z' -> z' = z) /\
  (is_integral v = true <-> value_is v z) /\
  (is_integral v = false -> int_to_double z <> v) /\
  (forall u w, setCoef_double w u <> Undefined <-> converts_to_int w) /\
  (forall P Q R, Polynomial_sub P Q = Ok R ->
     exists Q', Polynomial_add P Q' = Ok R /\
       Forall2 (fun u u' =>
         exp u' = exp u /\
         (exists c, truncation_of (Double.neg (coef u)) c /\ in_int c = true /\
                    coef u' = int_to_double c /\ value_is (coef u') c) /\
         (is_integral (coef u) = false -> coef u' <> Double.neg (coef u))) Q Q').
Proof.
  intros Htr Hin.
  assert (Hconv : double_to_int v = Some z) by (by apply double_to_int_truncation).
  split; [by rewrite setCoef_double_eq, Hconv|].
  split; [by apply value_is_int_to_double|].
  split; [intros z' Hz'; by apply (truncation_of_unique v)|].
  split; [by apply is_integral_value_is|].
  split; [by apply stored_not_fraction|].
  split.
  { intros u w. rewrite setCoef_double_eq.
    destruct (double_to_int w) as [c|] eqn:Hc.
    - split; [|done]. intros _. exists c. by apply double_to_int_truncation.
    - split; [done|]. intros Hw. by apply double_to_int_undefined in Hc. }
  intros P Q R HR. unfold Polynomial_sub in HR.
  destruct (negate_all Q) as [Q'| |] eqn:HQ; [|done|done].
  exists Q'. split; [exact HR|].
  apply negate_all_stored in HQ.
  eapply Forall2_impl; [exact HQ|].
  intros u u' [Hexp (c & Hc & Hcoef)].
  pose proof Hc as [Hct Hcin]%double_to_int_truncation.
  split; [done|]. split.
  - exists c. repeat split; try done. rewrite Hcoef. by apply value_is_int_to_double.
  - intros Hfrac. rewrite Hcoef.
    apply stored_not_fraction; [done|]. by rewrite is_integral_neg.
Qed.

Lemma setCoef_truncates_witness :
  truncation_of (Double.neg d_half) 0 /\ in_int 0 = true /\
  setCoef_double (Double.neg d_half) (Term_new d_half 1)
  = Ok (mkTerm (int_to_double 0) 1).
Proof.
  assert (Htr : truncation_of (Double.neg d_half) 0)
    by (vm_compute; split; [reflexivity|split; discriminate || reflexivity]).
  split; [exact Htr|]. split; [reflexivity|].
  exact (proj1 (setCoef_truncates (Term_new d_half 1) (Double.neg d_half) 0 Htr eq_refl)).
Defined.

(** C5 (as stated) fails: for [P = { Term(1, 5) }], [P + (P - P)] is [P]
    itself, not the empty sequence. *)
Lemma add_sub_self_not_empty :
  let P := Polynomial_new [Term_new d_one 5] in
  add_sub_self P = Ok P /\ add_sub_self P <> Ok [].
Proof. split; [vm_compute; reflexivity | vm_compute; discriminate]. Qed.

(** C5 (amended). For a polynomial [P] whose coefficients are integers that
    [int] holds together with their negations, [P - P] is the empty
    sequence, and [P + (P - P)] is [P]. *)
Theorem Polynomial_sub_self (P : list Term) :
  Forall (fun t => int_valued (coef t)) P ->
  Polynomial_sub P P = Ok [] /\ add_sub_self P = Ok P.
Proof.
  intros HP.
  assert (Hsub : Polynomial_sub P P = Ok []).
  { unfold Polynomial_sub.
    destruct (negate_all_cancel P HP) as (P' & HP' & Hc).
    rewrite HP'. simpl. rewrite Polynomial_add_merge.
    by rewrite merge_terms_cancel. }
  split; [exact Hsub|].
  unfold add_sub_self. rewrite Hsub. simpl. apply Polynomial_add_nil_r.
Qed.

Lemma Polynomial_sub_self_witness :
  let P := [Term_new d_one 5] in
  Forall (fun t => int_valued (coef t)) P /\
  Polynomial_sub P P = Ok [] /\ add_sub_self P = Ok P.
Proof.
  assert (H : Forall (fun t => int_valued (coef t)) [Term_new d_one 5]).
  { constructor; [|constructor]. exists 1. split; [|reflexivity].
    unfold INT_MIN, INT_MAX. lia. }
  split; [exact H|]. exact (Polynomial_sub_self _ H).
Defined.

(** ** Polynomial::insert *)

Section Insert.

Lemma insert_spec_skip (t it : Term) (rest : list Term) :
  exp it < exp t ->
  insert_spec t (it :: rest) = it :: insert_spec t rest.
Proof.
  intros Hlt. unfold insert_spec. simpl existsb.
  destruct (Z.eqb_spec (exp it) (exp t)) as [|_]; [lia|].
  destruct (Z.gtb_spec (exp it) (exp t)) as [|_]; [lia|].
  simpl orb.
  destruct (existsb _ rest).
  { simpl. by destruct (Z.eqb_spec (exp it) (exp t)); [lia|]. }
  destruct (existsb _ rest); [|done].
  simpl. by destruct (Z.gtb_spec (exp it) (exp t)); [lia|].
Qed.

Lemma existsb_equal_above (t : Term) (rest : list Term) (b : Z) :
  exp t < b -> Forall (fun u => b <= exp u) rest ->
  existsb (fun u => exp u =? exp t) rest = false.
Proof.
  intros Hb Hrest. induction Hrest as [|u rest Hu _ IH]; [done|].
  simpl. rewrite IH. by destruct (Z.eqb_spec (exp u) (exp t)); [lia|].
Qed.

(** The scan passes every term of smaller exponent. *)
Lemma Polynomial_insert_skip (t : Term) (l1 rest : list Term) :
  in_int (exp t) = true ->
  Forall (fun it => in_int (exp it) = true) l1 ->
  Forall (fun it => exp it < exp t) l1 ->
  Polynomial_insert t (l1 ++ rest) =
  (r ← Polynomial_insert t rest; mret (l1 ++ r)).
Proof.
  intros Ht Hint Hlt. induction Hlt as [|it l1 Hit _ IH].
  - simpl. by destruct (Polynomial_insert t rest).
  - apply Forall_cons in Hint as [Hi Hint].
    simpl. unfold getExp.
    rewrite eqb_int_to_double, gtb_int_to_double by done.
    destruct (Z.eqb_spec (exp it) (exp t)) as [|_]; [lia|].
    destruct (Z.gtb_spec (exp it) (exp t)) as [|_]; [lia|].
    rewrite IH by done. by destruct (Polynomial_insert t rest).
Qed.

(** On a polynomial sorted ascending, the scan is the three cases of the
    specification. *)
Lemma Polynomial_insert_spec_sorted (t : Term) (P : list Term) :
  ascending P ->
  in_int (exp t) = true ->
  Forall (fun it => in_int (exp it) = true) P ->
  (forall it, it ∈ P -> exp it = exp t -> int_sum (coef it) (coef t)) ->
  Polynomial_insert t P = Ok (insert_spec t P).
Proof.
  intros Hasc Ht Hint Hsum. apply ascending_strongly in Hasc.
  induction P as [|it rest IH]; [done|].
  rewrite fmap_cons in Hasc. apply StronglySorted_inv in Hasc as [Hrest Hle].
  rewrite Forall_fmap in Hle.
  apply Forall_cons in Hint as [Hit Hint].
  simpl Polynomial_insert. unfold getExp, getCoef.
  rewrite eqb_int_to_double, gtb_int_to_double by done.
  destruct (Z.eqb_spec (exp it) (exp t)) as [Heq|Hne].
  { destruct (Hsum it) as (z & Hz & Hadd); [left|done|].
    rewrite setCoef_double_eq, Hadd, double_to_int_to_double by done.
    simpl. unfold insert_spec. simpl existsb.
    destruct (Z.eqb_spec (exp it) (exp t)) as [_|]; [|done].
    simpl. destruct (Z.eqb_spec (exp it) (exp t)) as [_|]; [|done].
    by rewrite Hadd. }
  destruct (Z.gtb_spec (exp it) (exp t)) as [Hgt|Hngt].
  { unfold insert_spec. simpl existsb.
    destruct (Z.eqb_spec (exp it) (exp t)) as [|_]; [done|].
    rewrite (existsb_equal_above t rest (exp it)) by done. simpl orb.
    destruct (Z.gtb_spec (exp it) (exp t)) as [_|]; [|lia].
    simpl. by destruct (Z.gtb_spec (exp it) (exp t)) as [_|]; [|lia]. }
  rewrite IH; [|done|done|].
  - simpl. rewrite insert_spec_skip by lia. done.
  - intros u Hu. apply Hsum. by right.
Qed.

End Insert.

(** C7 (as stated) fails, in two ways.  Inserting [Term(0.5, 3)] into
    [{ Term(0.25, 3) }] leaves the coefficient 0, not the sum 0.75.  And
    inserting [Term(1, 3)] into a polynomial that [sort] has put in
    descending order, [{ Term(1, 5), Term(1, 3) }], puts the term in front of
    [Term(1, 5)] although a term of exponent 3 exists. *)
Lemma Polynomial_insert_not_spec :
  let P1 := Polynomial_new [Term_new d_quarter 3] in
  let t1 := Term_new d_half 3 in
  let P2 := Polynomial_sort cmp_descending
              (Polynomial_new [Term_new d_one 3; Term_new d_one 5]) in
  let t2 := Term_new d_one 3 in
  (Polynomial_insert t1 P1 = Ok [Term_new (int_to_double 0) 3] /\
   insert_spec t1 P1 = [Term_new (Double.add d_quarter d_half) 3] /\
   Polynomial_insert t1 P1 <> Ok (insert_spec t1 P1)) /\
  (P2 = [Term_new d_one 5; Term_new d_one 3] /\
   Polynomial_insert t2 P2 = Ok [Term_new d_one 3; Term_new d_one 5; Term_new d_one 3] /\
   insert_spec t2 P2 = [Term_new d_one 5; Term_new d_two 3] /\
   Polynomial_insert t2 P2 <> Ok (insert_spec t2 P2)).
Proof.
  repeat split; try (vm_compute; reflexivity); vm_compute; discriminate.
Qed.

(** C7 (amended). [P.insert(t)] scans the terms of [P] in order up to the
    first one whose exponent is not smaller than [t]'s.  If that exponent is
    equal, the term's coefficient is replaced in place by the sum of the two
    coefficients (also when it is zero), given that the sum is an integer
    that [int] holds, and nothing else changes; if it is greater, [t] goes
    right before that term; if every exponent is smaller (or [P] is empty),
    [P] stays as it is and [t] is dropped.  On a polynomial sorted ascending
    these are the three cases of the specification. *)
Theorem Polynomial_insert_scan (t : Term) (P : list Term) :
  in_int (exp t) = true ->
  Forall (fun it => in_int (exp it) = true) P ->
  (forall l1 it l2,
     P = l1 ++ it :: l2 -> Forall (fun u => exp u < exp t) l1 ->
     exp it = exp t -> int_sum (coef it) (coef t) ->
     Polynomial_insert t P
     = Ok (l1 ++ mkTerm (Double.add (coef it) (coef t)) (exp it) :: l2)) /\
  (forall l1 it l2,
     P = l1 ++ it :: l2 -> Forall (fun u => exp u < exp t) l1 ->
     exp t < exp it ->
     Polynomial_insert t P = Ok (l1 ++ t :: it :: l2)) /\
  (Forall (fun u => exp u < exp t) P -> Polynomial_insert t P = Ok P) /\
  (ascending P ->
   (forall it, it ∈ P -> exp it = exp t -> int_sum (coef it) (coef t)) ->
   Polynomial_insert t P = Ok (insert_spec t P)).
Proof.
  intros Ht Hint. repeat split.
  - intros l1 it l2 -> Hlt Heq (z & Hz & Hadd).
    apply Forall_app in Hint as [Hint1 [Hit _]%Forall_cons].
    rewrite Polynomial_insert_skip by done.
    simpl Polynomial_insert. unfold getExp, getCoef.
    rewrite eqb_int_to_double by done.
    destruct (Z.eqb_spec (exp it) (exp t)) as [_|]; [|done].
    rewrite setCoef_double_eq, Hadd, double_to_int_to_double by done.
    done.
  - intros l1 it l2 -> Hlt Hgt.
    apply Forall_app in Hint as [Hint1 [Hit _]%Forall_cons].
    rewrite Polynomial_insert_skip by done.
    simpl Polynomial_insert. unfold getExp.
    rewrite eqb_int_to_double, gtb_int_to_double by done.
    destruct (Z.eqb_spec (exp it) (exp t)) as [|_]; [lia|].
    by destruct (Z.gtb_spec (exp it) (exp t)) as [_|]; [|lia].
  - intros Hlt. rewrite <- (app_nil_r P) at 1.
    rewrite Polynomial_insert_skip by done. simpl. by rewrite app_nil_r.
  - intros Hasc Hsum. by apply Polynomial_insert_spec_sorted.
Qed.

Lemma Polynomial_insert_scan_witness :
  let P := [Term_new d_two 0; Term_new d_three 1; Term_new d_one 4] in
  let t := Term_new (int_to_double (-3)) 1 in
  Polynomial_insert t P
  = Ok [Term_new d_two 0; Term_new (int_to_double 0) 1; Term_new d_one 4].
Proof.
  intros P t.
  assert (Ht : in_int (exp t) = true) by reflexivity.
  assert (HP : Forall (fun it => in_int (exp it) = true) P) by (repeat constructor).
  apply (proj1 (Polynomial_insert_scan t P Ht HP)
           [Term_new d_two 0] (Term_new d_three 1) [Term_new d_one 4]).
  - reflexivity.
  - repeat constructor.
  - reflexivity.
  - exists 0. split; reflexivity.
Defined.

(** ** The scenarios of the specification *)

(** [{(2,0), (3,1)} + {(-3,1), (5,2)} = {(2,0), (5,2)}]: the terms of
    exponent 1 cancel. *)
Example scenario_add_cancels :
  Polynomial_add
    (Polynomial_new [Term_new d_two 0; Term_new d_three 1])
    (Polynomial_new [Term_new (int_to_double (-3)) 1; Term_new (int_to_double 5) 2])
  = Ok [Term_new d_two 0; Term_new (int_to_double 5) 2].
Proof. vm_compute. reflexivity. Qed.

(** [{(1,5)} - {(1,5)}] is empty. *)
Example scenario_sub_self :
  Polynomial_sub (Polynomial_new [Term_new d_one 5]) (Polynomial_new [Term_new d_one 5])
  = Ok [].
Proof. vm_compute. reflexivity. Qed.

(** Inserting into an empty polynomial, and inserting a term of the largest
    exponent, both drop the term. *)
Example scenario_insert_drops :
  Polynomial_insert (Term_new d_one 0) Polynomial_default = Ok [] /\
  Polynomial_insert (Term_new d_one 7) (Polynomial_new [Term_new d_one 5])
  = Ok [Term_new d_one 5].
Proof. split; vm_compute; reflexivity. Qed.

(** A conversion that [int] cannot hold is undefined: negating the
    coefficient [INT_MIN] in [operator-]. *)
Example scenario_sub_undefined :
  Polynomial_sub [] [Term_new (int_to_double INT_MIN) 0] = Undefined.
Proof. vm_compute. reflexivity. Qed.

(** The conversions agree with IEEE rounding on the bounds of [int]. *)
Example int_to_double_bounds :
  double_to_int (int_to_double INT_MIN) = Some INT_MIN /\
  double_to_int (int_to_double INT_MAX) = Some INT_MAX /\
  double_to_int (Double.lit 3 (-1)) = Some 1 /\
  double_to_int (Double.neg (Double.lit 3 (-1))) = Some (-1).
Proof. repeat split; vm_compute; reflexivity. Qed.

(** ** Operands and results as objects *)

Section Objects.

Implicit Types (s : store) (p q o : loc) (v : list Term).

Lemma alloc_fresh v s : s !! (alloc v s).1 = None.
Proof. simpl. apply not_elem_of_dom, is_fresh. Qed.

(** The in-place loop on the object at [o] computes [negate_all] on what is
    left of its vector, and touches no other object. *)
Lemma negate_in_place_spec (n : nat) :
  forall (i : nat) o s v,
    s !! o = Some v -> (length v <= i + n)%nat ->
    negate_in_place n i o s =
    (r ← negate_all (drop i v); mret (<[o := take i v ++ r]> s)).
Proof.
  induction n as [|n IH]; intros i o s v Hv Hlen.
  - rewrite drop_ge by lia. simpl. rewrite app_nil_r, take_ge by lia.
    by rewrite insert_id.
  - simpl negate_in_place. rewrite Hv.
    destruct (v !! i) as [t|] eqn:Hi.
    + rewrite (drop_S _ _ _ Hi). simpl negate_all.
      destruct (setCoef_double _ t) as [t'| |]; [|done|done]. simpl.
      rewrite (IH (S i) o _ (<[i := t']> v)); [|apply lookup_insert_eq|].
      * rewrite drop_insert_lt by lia.
        destruct (negate_all (drop (S i) v)) as [r| |]; [|done|done]. simpl.
        rewrite insert_insert_eq. do 2 f_equal.
        rewrite (take_S_r _ _ t') by (apply list_lookup_insert_eq; by eapply lookup_lt_Some).
        rewrite take_insert_ge by lia. by rewrite <- app_assoc.
      * rewrite length_insert. lia.
    + apply lookup_ge_None in Hi. rewrite drop_ge by lia. simpl.
      rewrite app_nil_r, take_ge by lia. by rewrite insert_id.
Qed.

Lemma call_add_spec s p q (P Q : list Term) :
  s !! p = Some P -> s !! q = Some Q ->
  call_add p q s = (R ← Polynomial_add P Q; mret (alloc R s)).
Proof. intros Hp Hq. unfold call_add. by rewrite Hp, Hq. Qed.


End Objects.



(** * Further properties of the code *)

(** ** class Term *)

(** X1. The six comparison operators look at the exponents only: exactly one
    of [t < u], [t == u], [t > u] holds, [<=], [>=] and [!=] are the
    negations of [>], [<] and [==], [t < u] is [u > t], and two terms of the
    same exponent compare equal whatever their coefficients. *)
Theorem Term_comparisons (t u : Term) :
  (Term_lt t u = true /\ Term_eq t u = false /\ Term_gt t u = false \/
   Term_lt t u = false /\ Term_eq t u = true /\ Term_gt t u = false \/
   Term_lt t u = false /\ Term_eq t u = false /\ Term_gt t u = true) /\
  Term_le t u = negb (Term_gt t u) /\
  Term_ge t u = negb (Term_lt t u) /\
  Term_ne t u = negb (Term_eq t u) /\
  Term_lt t u = Term_gt u t /\
  Term_le t u = Term_ge u t /\
  (forall c c', Term_eq (mkTerm c (exp t)) (mkTerm c' (exp t)) = true).
Proof.
  unfold Term_lt, Term_eq, Term_gt, Term_le, Term_ge, Term_ne. simpl.
  repeat split; lia.
Qed.

(** X2. [Term::operator+] is commutative, its throw included. *)
Theorem Term_add_comm (t u : Term) : Term_add t u = Term_add u t.
Proof.
  unfold Term_add. rewrite (double_add_comm (coef u) (coef t)).
  rewrite (Z.eqb_sym (exp u) (exp t)).
  destruct (Z.eqb_spec (exp t) (exp u)) as [->|]; done.
Qed.

(** X3. [Term::operator+] does not chain after a cancellation: when two
    terms of the same non-zero exponent cancel, their sum is [Term(0, 0)],
    and adding a third term of that exponent to it throws; adding the third
    term to the second one first, and the first one to that sum, does not
    throw when the second and third do not cancel. *)
Theorem Term_add_after_cancel (t u v : Term) :
  exp t = exp u -> exp v = exp t -> exp t <> 0 ->
  Double.eqb (Double.add (coef t) (coef u)) (int_to_double 0) = true ->
  Term_add t u = Ok (Term_new (int_to_double 0) 0) /\
  (r ← Term_add t u; Term_add r v) = Throw_invalid_argument /\
  (Double.eqb (Double.add (coef u) (coef v)) (int_to_double 0) = false ->
   (r ← Term_add u v; Term_add t r) <> Throw_invalid_argument).
Proof.
  intros Htu Hvt Hnz Hsum.
  assert (Heq1 : (exp t =? exp u) = true) by lia.
  assert (Heq2 : (exp u =? exp v) = true) by lia.
  assert (Htu0 : Term_add t u = Ok (Term_new (int_to_double 0) 0)).
  { unfold Term_add. by rewrite Heq1, Hsum. }
  split; [exact Htu0|]. split.
  - rewrite Htu0. change (Term_add (Term_new (int_to_double 0) 0) v = Throw_invalid_argument).
    unfold Term_add, Term_new. cbn [exp].
    by destruct (Z.eqb_spec 0 (exp v)) as [|_]; [lia|].
  - intros Huv.
    assert (Huv0 : Term_add u v = Ok (Term_new (Double.add (coef u) (coef v)) (exp u))).
    { unfold Term_add. by rewrite Heq2, Huv. }
    rewrite Huv0.
    change (Term_add t (Term_new (Double.add (coef u) (coef v)) (exp u))
            <> Throw_invalid_argument).
    unfold Term_add, Term_new. cbn [exp coef]. rewrite Heq1. cbn [negb].
    destruct (Double.eqb (Double.add (coef t) (Double.add (coef u) (coef v)))
                         (int_to_double 0)); discriminate.
Qed.

Lemma Term_add_after_cancel_witness :
  let t := Term_new d_three 4 in
  let u := Term_new (int_to_double (-3)) 4 in
  let v := Term_new d_one 4 in
  Term_add t u = Ok (Term_new (int_to_double 0) 0) /\
  (r ← Term_add t u; Term_add r v) = Throw_invalid_argument /\
  (Double.eqb (Double.add (coef u) (coef v)) (int_to_double 0) = false ->
   (r ← Term_add u v; Term_add t r) <> Throw_invalid_argument).
Proof.
  intros t u v.
  apply (Term_add_after_cancel t u v); try reflexivity. simpl. lia.
Defined.

(** X4. [Term::operator-] negates exactly: a term with a finite coefficient
    minus itself is [Term(0, 0)]; and it throws exactly when the exponents
    differ. *)
Theorem Term_sub_self (t : Term) :
  is_finite (coef t) = true ->
  Term_sub t t = Ok (Term_new (int_to_double 0) 0) /\
  (forall u, Term_sub t u = Throw_invalid_argument <-> exp t <> exp u).
Proof.
  intros Hfin. split.
  - unfold Term_sub, Term_add. simpl. rewrite Z.eqb_refl. simpl.
    destruct (coef t) as [s|s| |s m e]; try done.
    + by destruct s.
    + by rewrite double_add_neg_finite.
  - intros u. unfold Term_sub, Term_add. simpl.
    destruct (Z.eqb_spec (exp t) (exp u)) as [Heq|Hne]; simpl.
    + by destruct (Double.eqb _ _).
    + done.
Qed.

Lemma Term_sub_self_witness :
  Term_sub (Term_new d_half 7) (Term_new d_half 7) = Ok (Term_new (int_to_double 0) 0).
Proof. exact (proj1 (Term_sub_self (Term_new d_half 7) eq_refl)). Defined.

(** X5. Setters and getters round-trip through the conversions: after
    [setCoef(c)] with an [int] [c], [getCoef()] converts back to [c] and the
    exponent is as before; after [setExp(e)], [getExp()] converts back to
    [e] and the coefficient is as before. *)
Theorem Term_set_get (t : Term) (c e : Z) :
  in_int c = true -> in_int e = true ->
  double_to_int (getCoef (setCoef c t)) = Some c /\
  exp (setCoef c t) = exp t /\
  double_to_int (getExp (setExp e t)) = Some e /\
  getCoef (setExp e t) = getCoef t.
Proof.
  intros Hc He. unfold getCoef, getExp, setCoef, setExp. simpl.
  by rewrite !double_to_int_to_double.
Qed.

Lemma Term_set_get_witness :
  double_to_int (getCoef (setCoef (-7) (Term_new d_half 2))) = Some (-7).
Proof.
  exact (proj1 (Term_set_get (Term_new d_half 2) (-7) 3 eq_refl eq_refl)).
Defined.

(** X6. With an exponent that is zero or negative the loop of [Term::cal]
    does not run: [cal(x)] is [coef * x]. *)
Theorem Term_cal_negative_exponent (t : Term) (x : double) :
  exp t <= 0 -> Term_cal t x = Double.mul (coef t) x.
Proof.
  intros He. unfold Term_cal. by replace (Z.to_nat (exp t)) with 0%nat by lia.
Qed.

Lemma Term_cal_negative_exponent_witness :
  Term_cal (Term_new d_three (-2)) d_two = Double.mul d_three d_two.
Proof.
  apply (Term_cal_negative_exponent (Term_new d_three (-2)) d_two). simpl. lia.
Defined.

(** X7. With an exponent of at least 1, [Term::cal] squares its argument
    first, so it takes the same value at [-x] and at [x]. *)
Theorem Term_cal_even (t : Term) (x : double) :
  1 <= exp t -> Term_cal t (Double.neg x) = Term_cal t x.
Proof.
  intros He. unfold Term_cal.
  destruct (Z.to_nat (exp t)) as [|n] eqn:Hn; [lia|].
  simpl cal_loop. destruct (Z.ltb_spec 0 (exp t)); [|lia].
  replace (Double.mul (Double.neg x) (Double.neg x)) with (Double.mul x x); [done|].
  destruct x as [s|s| |s m e]; simpl; try done; by destruct s.
Qed.

Lemma Term_cal_even_witness :
  Term_cal (Term_new d_three 1) (Double.neg d_two) = Term_cal (Term_new d_three 1) d_two.
Proof.
  apply (Term_cal_even (Term_new d_three 1) d_two). simpl. lia.
Defined.

(** ** Construction and sorting *)

Section Sorting.

Lemma sort_insert_perm (t : Term) (l : list Term) : sort_insert t l ≡ₚ t :: l.
Proof.
  induction l as [|u l IH]; [done|]. simpl.
  destruct (Double.ltb _ _); [|done].
  rewrite IH. apply Permutation_swap.
Qed.

Lemma sort_by_exp_perm (l : list Term) : sort_by_exp l ≡ₚ l.
Proof.
  induction l as [|t l IH]; [done|]. simpl.
  rewrite sort_insert_perm. by rewrite IH.
Qed.

Lemma sort_insert_sorted (t : Term) (l : list Term) :
  in_int (exp t) = true ->
  Forall (fun u => in_int (exp u) = true) l ->
  StronglySorted Z.le (exp <$> l) ->
  StronglySorted Z.le (exp <$> sort_insert t l).
Proof.
  intros Ht Hint Hs. induction l as [|u l IH]; [repeat constructor|].
  apply Forall_cons in Hint as [Hu Hint].
  rewrite fmap_cons in Hs. apply StronglySorted_inv in Hs as [Hl Hle].
  simpl sort_insert. unfold getExp. rewrite ltb_int_to_double by done.
  destruct (Z.ltb_spec (exp u) (exp t)) as [Hlt|Hge].
  - rewrite fmap_cons. constructor; [by apply IH|].
    rewrite (sort_insert_perm t l), fmap_cons.
    constructor; [lia|done].
  - rewrite !fmap_cons. constructor; [by constructor|].
    constructor; [done|]. eapply Forall_impl; [exact Hle|]. intros; simpl in *; lia.
Qed.

Lemma sort_by_exp_sorted (l : list Term) :
  Forall (fun u => in_int (exp u) = true) l ->
  StronglySorted Z.le (exp <$> sort_by_exp l).
Proof.
  induction 1 as [|t l Ht Hl IH]; [constructor|]. simpl.
  apply sort_insert_sorted; [done| |done].
  by rewrite sort_by_exp_perm.
Qed.

Lemma sort_insert_with_default (t : Term) (l : list Term) :
  sort_insert_with cmp_default t l = sort_insert t l.
Proof. induction l as [|u l IH]; [done|]. simpl. by rewrite IH. Qed.

End Sorting.

(** X8. Each constructor of [Polynomial], and [sort()] with its default
    comparator, leaves the terms it is given sorted ascending by exponent:
    a permutation of them, so with the same size and with duplicate
    exponents and zero coefficients kept. *)
Theorem Polynomial_new_sorted (l : list Term) :
  Forall (fun u => in_int (exp u) = true) l ->
  ascending (Polynomial_new l) /\
  Polynomial_new l ≡ₚ l /\
  Polynomial_size (Polynomial_new l) = length l /\
  Polynomial_sort cmp_default l = Polynomial_new l.
Proof.
  intros Hint. unfold Polynomial_new, Polynomial_size.
  split; [by apply ascending_strongly, sort_by_exp_sorted|].
  split; [apply sort_by_exp_perm|].
  split; [by rewrite sort_by_exp_perm|].
  unfold Polynomial_sort, sort_by_exp.
  induction l as [|t l IH]; [done|]. simpl.
  apply Forall_cons in Hint as [_ Hint].
  by rewrite IH, sort_insert_with_default.
Qed.

Lemma Polynomial_new_sorted_witness :
  let l := [Term_new d_one 4; Term_new d_half 0; Term_new d_two 4; Term_new d_three 1] in
  ascending (Polynomial_new l) /\ Polynomial_new l ≡ₚ l.
Proof.
  intros l.
  assert (Hint : Forall (fun u => in_int (exp u) = true) l) by (repeat constructor).
  split.
  - exact (proj1 (Polynomial_new_sorted l Hint)).
  - exact (proj1 (proj2 (Polynomial_new_sorted l Hint))).
Defined.

(** X9. The sum of two polynomials built by the constructors is always
    returned, and is sorted ascending by exponent. *)
Theorem Polynomial_new_add_sorted (l1 l2 : list Term) :
  Forall (fun u => in_int (exp u) = true) l1 ->
  Forall (fun u => in_int (exp u) = true) l2 ->
  exists R, Polynomial_add (Polynomial_new l1) (Polynomial_new l2) = Ok R /\
            ascending R.
Proof.
  intros H1 H2. eexists. split; [apply Polynomial_add_merge|].
  apply merge_terms_ascending; by apply ascending_strongly, sort_by_exp_sorted.
Qed.

Lemma Polynomial_new_add_sorted_witness :
  exists R, Polynomial_add (Polynomial_new [Term_new d_one 4; Term_new d_half 0])
                           (Polynomial_new [Term_new d_two 3; Term_new d_one 4; Term_new d_one 1])
            = Ok R /\ ascending R.
Proof.
  apply Polynomial_new_add_sorted; repeat constructor.
Defined.

(** ** More on Polynomial::operator+ *)

Section MergeMore.

Lemma merge_terms_cons (t o : Term) (P Q : list Term) :
  merge_terms (t :: P) (o :: Q) =
  if exp t <? exp o then t :: merge_terms P (o :: Q)
  else if exp t >? exp o then o :: merge_terms (t :: P) Q
  else if Double.neqb (Double.add (coef t) (coef o)) (int_to_double 0)
       then mkTerm (Double.add (coef t) (coef o)) (exp t) :: merge_terms P Q
       else merge_terms P Q.
Proof. reflexivity. Qed.

Lemma merge_terms_length (P : list Term) :
  forall Q,
    (length (merge_terms P Q) <= length P + length Q)%nat /\
    (length P <= length (merge_terms P Q) + length Q)%nat /\
    (length Q <= length (merge_terms P Q) + length P)%nat.
Proof.
  induction P as [|t P IHP]; intros Q.
  { destruct Q; simpl; lia. }
  induction Q as [|o Q IHQ]; [simpl; lia|].
  simpl merge_terms.
  destruct (exp t <? exp o).
  { specialize (IHP (o :: Q)). simpl in *. lia. }
  destruct (exp t >? exp o).
  { simpl in *. lia. }
  specialize (IHP Q).
  destruct (Double.neqb _ _); simpl in *; lia.
Qed.

Lemma coef_at_cons (e : Z) (t : Term) (P : list Term) :
  coef_at e (t :: P) = if exp t =? e then Some (coef t) else coef_at e P.
Proof. unfold coef_at. simpl. by destruct (exp t =? e). Qed.

Lemma coef_at_above (e : Z) (P : list Term) :
  Forall (fun t => e < exp t) P -> coef_at e P = None.
Proof.
  induction 1 as [|t P Ht _ IH]; [done|].
  rewrite coef_at_cons, IH. by destruct (Z.eqb_spec (exp t) e); [lia|].
Qed.

Lemma strictly_ascending_cons (t : Term) (P : list Term) :
  strictly_ascending (t :: P) ->
  strictly_ascending P /\ Forall (fun u => exp t < exp u) P.
Proof.
  unfold strictly_ascending. rewrite fmap_cons.
  intros [HP Ht]%StronglySorted_inv. by rewrite Forall_fmap in Ht.
Qed.

Lemma merge_terms_coef_at (e : Z) (P : list Term) :
  forall Q,
    strictly_ascending P -> strictly_ascending Q ->
    coef_at e (merge_terms P Q) = add_coef (coef_at e P) (coef_at e Q).
Proof.
  induction P as [|t P IHP]; intros Q HP HQ.
  { destruct Q; simpl; [done|]. by destruct (coef_at e (_ :: _)). }
  induction Q as [|o Q IHQ].
  { simpl merge_terms. by destruct (coef_at e (t :: P)). }
  apply strictly_ascending_cons in HP as [HP' Ht].
  pose proof HQ as HQfull.
  apply strictly_ascending_cons in HQ as [HQ' Ho].
  rewrite merge_terms_cons, !(coef_at_cons e t), !(coef_at_cons e o).
  destruct (Z.ltb_spec (exp t) (exp o)) as [Hlt|Hge].
  { rewrite coef_at_cons, (IHP (o :: Q)), coef_at_cons by done.
    destruct (Z.eqb_spec (exp t) e) as [<-|Hne]; [|done].
    destruct (Z.eqb_spec (exp o) (exp t)); [lia|].
    rewrite (coef_at_above (exp t) Q); [done|].
    eapply Forall_impl; [exact Ho|]. intros; simpl in *; lia. }
  destruct (Z.gtb_spec (exp t) (exp o)) as [Hgt|Hle].
  { rewrite coef_at_cons, IHQ by done. rewrite coef_at_cons.
    destruct (Z.eqb_spec (exp o) e) as [<-|Hne].
    - destruct (Z.eqb_spec (exp t) (exp o)); [lia|].
      rewrite (coef_at_above (exp o) P); [done|].
      eapply Forall_impl; [exact Ht|]. intros; simpl in *; lia.
    - done. }
  assert (Heq : exp o = exp t) by lia. rewrite Heq in *.
  destruct (Z.eqb_spec (exp t) e) as [<-|Hne].
  - simpl add_coef. destruct (Double.neqb _ _).
    + rewrite coef_at_cons. simpl. by rewrite Z.eqb_refl.
    + apply coef_at_above.
      by apply (merge_terms_Forall_exp (fun x => exp t < x) P Q).
  - destruct (Double.neqb _ _).
    + rewrite coef_at_cons. simpl exp.
      destruct (Z.eqb_spec (exp t) e); [done|]. by apply IHP.
    + by apply IHP.
Qed.

End MergeMore.

(** X10. The size of [P + Q] is at most the sum of the two sizes and at
    least their difference, so the sum can only be empty when the operands
    have the same size; and the empty polynomial is neutral on both sides:
    [P + {}] and [{} + P] return the terms of [P] as they are. *)
Theorem Polynomial_add_size (P Q : list Term) :
  exists R, Polynomial_add P Q = Ok R /\
    (Polynomial_size R <= Polynomial_size P + Polynomial_size Q)%nat /\
    (Polynomial_size P - Polynomial_size Q <= Polynomial_size R)%nat /\
    (Polynomial_size Q - Polynomial_size P <= Polynomial_size R)%nat /\
    (Polynomial_empty R = true -> Polynomial_size P = Polynomial_size Q) /\
    Polynomial_add P Polynomial_default = Ok P /\
    Polynomial_add Polynomial_default P = Ok P.
Proof.
  exists (merge_terms P Q). split; [apply Polynomial_add_merge|].
  unfold Polynomial_size. pose proof (merge_terms_length P Q) as (H1 & H2 & H3).
  repeat split; try lia.
  - destruct (merge_terms P Q); [simpl in *; lia|done].
  - apply Polynomial_add_nil_r.
  - by destruct P.
Qed.

(** X11. For polynomials sorted strictly ascending by exponent, [P + Q] adds
    coefficient by coefficient: at every exponent, a coefficient that only
    one operand has is kept, the coefficients that both have are added, and
    no term is there when that sum compares equal to zero. *)
Theorem Polynomial_add_coefficients (P Q : list Term) (e : Z) :
  strictly_ascending P -> strictly_ascending Q ->
  exists R, Polynomial_add P Q = Ok R /\
            coef_at e R = add_coef (coef_at e P) (coef_at e Q).
Proof.
  intros HP HQ. exists (merge_terms P Q).
  split; [apply Polynomial_add_merge|]. by apply merge_terms_coef_at.
Qed.

Lemma Polynomial_add_coefficients_witness :
  let P := [Term_new d_two 0; Term_new d_three 1] in
  let Q := [Term_new (int_to_double (-3)) 1; Term_new (int_to_double 5) 2] in
  exists R, Polynomial_add P Q = Ok R /\
            coef_at 1 R = add_coef (coef_at 1 P) (coef_at 1 Q).
Proof.
  apply Polynomial_add_coefficients;
    unfold strictly_ascending; simpl; repeat constructor; lia.
Defined.

(** ** More on Polynomial::insert *)

Section InsertMore.

(** One step of the scan, with the comparisons read on the exponents. *)
Lemma Polynomial_insert_cons (t it : Term) (rest : list Term) :
  in_int (exp t) = true -> in_int (exp it) = true ->
  Polynomial_insert t (it :: rest) =
  if exp it =? exp t then
    it' ← setCoef_double (Double.add (coef it) (coef t)) it; mret (it' :: rest)
  else if exp it >? exp t then Ok (t :: it :: rest)
  else r ← Polynomial_insert t rest; mret (it :: r).
Proof.
  intros Ht Hit. simpl. unfold getExp, getCoef.
  by rewrite eqb_int_to_double, gtb_int_to_double.
Qed.

Lemma setCoef_double_exp (v : double) (it it' : Term) :
  setCoef_double v it = Ok it' -> exp it' = exp it.
Proof.
  rewrite setCoef_double_eq. destruct (double_to_int v); [|done].
  by intros [= <-].
Qed.

(** Every exponent of the result is [t]'s or one of [P]. *)
Lemma Polynomial_insert_Forall_exp (phi : Z -> Prop) (t : Term) (P : list Term) :
  in_int (exp t) = true ->
  Forall (fun it => in_int (exp it) = true) P ->
  forall R, Polynomial_insert t P = Ok R ->
    phi (exp t) -> Forall (fun u => phi (exp u)) P ->
    Forall (fun u => phi (exp u)) R.
Proof.
  intros Ht Hint. induction Hint as [|it rest Hit Hint IH]; intros R HR Hphi HP.
  { by injection HR as <-. }
  rewrite Polynomial_insert_cons in HR by done.
  apply Forall_cons in HP as [Hpit HP].
  destruct (exp it =? exp t).
  { destruct (setCoef_double _ it) as [it'| |] eqn:Hset; [|done|done].
    injection HR as <-. constructor; [|done].
    by rewrite (setCoef_double_exp _ _ _ Hset). }
  destruct (exp it >? exp t).
  { injection HR as <-. by repeat constructor. }
  destruct (Polynomial_insert t rest) as [r| |]; [|done|done].
  injection HR as <-. constructor; [done|]. by apply IH.
Qed.

Section Order.
Variable R : Z -> Z -> Prop.
Hypothesis R_lt : forall a b, a < b -> R a b.
Hypothesis R_lt_trans : forall a b c, a < b -> R b c -> R a c.

Lemma Polynomial_insert_sorted (t : Term) (P : list Term) :
  in_int (exp t) = true ->
  Forall (fun it => in_int (exp it) = true) P ->
  forall P', Polynomial_insert t P = Ok P' ->
    StronglySorted R (exp <$> P) -> StronglySorted R (exp <$> P').
Proof using R_lt R_lt_trans.
  intros Ht Hint. induction Hint as [|it rest Hit Hint IH]; intros P' HP' Hs.
  { by injection HP' as <-. }
  rewrite Polynomial_insert_cons in HP' by done.
  rewrite fmap_cons in Hs. pose proof Hs as Hfull.
  apply StronglySorted_inv in Hs as [Hrest Hle]. rewrite Forall_fmap in Hle.
  destruct (Z.eqb_spec (exp it) (exp t)) as [Heq|Hne].
  { destruct (setCoef_double _ it) as [it'| |] eqn:Hset; [|done|done].
    injection HP' as <-. rewrite fmap_cons.
    by rewrite (setCoef_double_exp _ _ _ Hset). }
  destruct (Z.gtb_spec (exp it) (exp t)) as [Hgt|Hngt].
  { injection HP' as <-. rewrite !fmap_cons. constructor; [done|].
    constructor; [apply R_lt; lia|]. rewrite Forall_fmap.
    eapply Forall_impl; [exact Hle|]. intros u Hu.
    eapply R_lt_trans; [|exact Hu]. lia. }
  destruct (Polynomial_insert t rest) as [r| |] eqn:Hr; [|done|done].
  injection HP' as <-. rewrite fmap_cons. constructor; [by apply IH|].
  rewrite Forall_fmap.
  apply (Polynomial_insert_Forall_exp (R (exp it)) t rest Ht Hint r Hr); [|done].
  apply R_lt. lia.
Qed.
End Order.

Lemma Polynomial_insert_length (t : Term) (P : list Term) :
  forall P', Polynomial_insert t P = Ok P' ->
    (length P <= length P' <= S (length P))%nat.
Proof.
  induction P as [|it rest IH]; intros P' HP'.
  { injection HP' as <-. simpl. lia. }
  simpl in HP'. destruct (Double.eqb _ _).
  { destruct (setCoef_double _ it); [|done|done]. injection HP' as <-. simpl. lia. }
  destruct (Double.gtb _ _).
  { injection HP' as <-. simpl. lia. }
  destruct (Polynomial_insert t rest) as [r| |]; [|done|done].
  injection HP' as <-. specialize (IH r eq_refl). simpl. lia.
Qed.

Lemma Polynomial_insert_present (t : Term) (P : list Term) :
  in_int (exp t) = true ->
  Forall (fun it => in_int (exp it) = true) P ->
  forall P', Polynomial_insert t P = Ok P' ->
    Exists (fun u => exp t <= exp u) P -> Exists (fun u => exp u = exp t) P'.
Proof.
  intros Ht Hint. induction Hint as [|it rest Hit Hint IH]; intros P' HP' Hex.
  { by apply Exists_nil in Hex. }
  rewrite Polynomial_insert_cons in HP' by done.
  destruct (Z.eqb_spec (exp it) (exp t)) as [Heq|Hne].
  { destruct (setCoef_double _ it) as [it'| |] eqn:Hset; [|done|done].
    injection HP' as <-. apply Exists_cons_hd.
    by rewrite (setCoef_double_exp _ _ _ Hset). }
  destruct (Z.gtb_spec (exp it) (exp t)) as [Hgt|Hngt].
  { injection HP' as <-. by apply Exists_cons_hd. }
  destruct (Polynomial_insert t rest) as [r| |] eqn:Hr; [|done|done].
  injection HP' as <-. apply Exists_cons_tl. apply IH; [done|].
  apply Exists_cons in Hex as [Hhd|Htl]; [lia|done].
Qed.

End InsertMore.

(** X12. [insert] keeps a sorted polynomial sorted: when [P.insert(t)]
    returns, the terms are still ascending by exponent if they were, still
    with one term per exponent at most if they were so, and the size is the
    same or larger by one. *)
Theorem Polynomial_insert_invariant (t : Term) (P P' : list Term) :
  in_int (exp t) = true ->
  Forall (fun it => in_int (exp it) = true) P ->
  Polynomial_insert t P = Ok P' ->
  (ascending P -> ascending P') /\
  (strictly_ascending P -> strictly_ascending P') /\
  (Polynomial_size P <= Polynomial_size P' <= S (Polynomial_size P))%nat.
Proof.
  intros Ht Hint HP'. split; [|split].
  - rewrite !ascending_strongly.
    apply (Polynomial_insert_sorted Z.le) with (t := t); try done; intros; lia.
  - apply (Polynomial_insert_sorted Z.lt) with (t := t); try done; intros; lia.
  - by apply (Polynomial_insert_length t).
Qed.

Lemma Polynomial_insert_invariant_witness :
  let P := [Term_new d_two 0; Term_new d_three 1; Term_new d_one 4] in
  let t := Term_new d_one 3 in
  ascending [Term_new d_two 0; Term_new d_three 1; t; Term_new d_one 4].
Proof.
  intros P t.
  assert (Ht : in_int (exp t) = true) by reflexivity.
  assert (HP : Forall (fun it => in_int (exp it) = true) P) by (repeat constructor).
  apply (proj1 (Polynomial_insert_invariant t P _ Ht HP eq_refl)).
  unfold ascending. simpl. repeat constructor; lia.
Defined.

(** X13. When some term of [P] has an exponent that is not smaller than
    [t]'s and [P.insert(t)] returns, a term with [t]'s exponent is present
    afterwards (the term is only lost when every exponent is smaller). *)
Theorem Polynomial_insert_then_present (t : Term) (P P' : list Term) :
  in_int (exp t) = true ->
  Forall (fun it => in_int (exp it) = true) P ->
  Exists (fun u => exp t <= exp u) P ->
  Polynomial_insert t P = Ok P' ->
  Exists (fun u => exp u = exp t) P'.
Proof.
  intros Ht Hint Hex HP'. by apply (Polynomial_insert_present t P Ht Hint P' HP').
Qed.

Lemma Polynomial_insert_then_present_witness :
  Exists (fun u => exp u = 3)
         [Term_new d_two 0; Term_new d_one 3; Term_new d_one 4].
Proof.
  apply (Polynomial_insert_then_present (Term_new d_one 3)
           [Term_new d_two 0; Term_new d_one 4]).
  - reflexivity.
  - repeat constructor.
  - apply Exists_cons_tl, Exists_cons_hd. simpl. lia.
  - reflexivity.
Defined.

(** ** More on Polynomial::operator- *)

Section SubtractionMore.

Lemma negate_all_exact (Q : list Term) :
  Forall (fun t => nonzero_int_valued (coef t)) Q ->
  negate_all Q = Ok (negated Q).
Proof.
  induction 1 as [|t Q (z & Hnz & Hz & Hc) _ IH]; [done|].
  simpl negate_all. unfold getCoef. rewrite setCoef_double_eq, Hc.
  unfold INT_MIN, INT_MAX in Hz.
  rewrite neg_int_to_double by lia.
  rewrite double_to_int_to_double
    by (apply in_int_bounds; unfold INT_MIN, INT_MAX; lia).
  simpl. rewrite IH. simpl.
  by rewrite Hc, neg_int_to_double by lia.
Qed.

Lemma negate_all_exponents (Q Q' : list Term) :
  negate_all Q = Ok Q' -> exp <$> Q' = exp <$> Q.
Proof.
  intros H%negate_all_stored.
  induction H as [|t t' Q Q' [Hexp _] _ IH]; [done|].
  rewrite !fmap_cons. by rewrite Hexp, IH.
Qed.

Lemma negate_all_outcome (Q : list Term) :
  match negate_all Q with
  | Ok Q' => Forall (fun t => is_Some (double_to_int (Double.neg (coef t)))) Q
  | Undefined => Exists (fun t => double_to_int (Double.neg (coef t)) = None) Q
  | Throw_invalid_argument => False
  end.
Proof.
  induction Q as [|t Q IH]; [constructor|].
  simpl negate_all. unfold getCoef. rewrite setCoef_double_eq.
  destruct (double_to_int (Double.neg (coef t))) as [z|] eqn:Hz; simpl.
  - destruct (negate_all Q) as [Q'| |]; simpl.
    + constructor; [by rewrite Hz|done].
    + done.
    + by apply Exists_cons_tl.
  - by apply Exists_cons_hd.
Qed.

End SubtractionMore.

(** X14. When every coefficient of [Q] is a non-zero integer that [int]
    holds together with its negation, [P - Q] is [P] plus the copy of [Q]
    with every coefficient exactly negated. *)
Theorem Polynomial_sub_exact (P Q : list Term) :
  Forall (fun t => nonzero_int_valued (coef t)) Q ->
  Polynomial_sub P Q = Polynomial_add P (negated Q).
Proof.
  intros HQ. unfold Polynomial_sub. by rewrite negate_all_exact.
Qed.

Lemma Polynomial_sub_exact_witness :
  let P := [Term_new d_half 0; Term_new d_three 1] in
  let Q := [Term_new d_two 1; Term_new (int_to_double (-3)) 2] in
  Polynomial_sub P Q = Polynomial_add P (negated Q).
Proof.
  apply Polynomial_sub_exact.
  constructor; [exists 2|constructor; [exists (-3)|constructor]];
    (split; [lia|split; [unfold INT_MIN, INT_MAX; lia|reflexivity]]).
Defined.

(** X15. [P - Q] never throws; it is undefined exactly when the negation of
    some coefficient of [Q] does not convert to [int] (NaN, an infinity, or
    a magnitude out of range); otherwise it returns, and the result is
    sorted ascending by exponent when [P] and [Q] are; [P - {}] is [P]. *)
Theorem Polynomial_sub_outcome (P Q : list Term) :
  match Polynomial_sub P Q with
  | Ok R =>
      Forall (fun t => is_Some (double_to_int (Double.neg (coef t)))) Q /\
      (ascending P -> ascending Q -> ascending R)
  | Undefined => Exists (fun t => double_to_int (Double.neg (coef t)) = None) Q
  | Throw_invalid_argument => False
  end /\
  Polynomial_sub P Polynomial_default = Ok P.
Proof.
  split; [|apply Polynomial_add_nil_r].
  unfold Polynomial_sub. pose proof (negate_all_outcome Q) as HQ.
  destruct (negate_all Q) as [Q'| |] eqn:Hneg; simpl; [|done|done].
  rewrite Polynomial_add_merge. split; [done|].
  intros HP Hasc. apply merge_terms_ascending; [done|].
  unfold ascending. by rewrite (negate_all_exponents Q Q').
Qed.

(** ** Polynomial::cal *)

Section Evaluation.

Lemma double_add_nan_l (y : double) : Double.add S754_nan y = S754_nan.
Proof. done. Qed.

Lemma double_add_nan_r (x : double) : Double.add x S754_nan = S754_nan.
Proof. by destruct x. Qed.

Lemma double_mul_nan_r (x : double) : Double.mul x S754_nan = S754_nan.
Proof. by destruct x. Qed.

Lemma cal_sum_nan (x : double) (P : list Term) :
  fold_left (fun result t => Double.add result (Term_cal t x)) P S754_nan = S754_nan.
Proof. induction P as [|t P IH]; [done|]. simpl. apply IH. Qed.

Lemma cal_loop_nan (n : nat) : forall i e, cal_loop n i e S754_nan = S754_nan.
Proof.
  induction n as [|n IH]; intros i e; [done|].
  simpl. destruct (i <? e); [apply IH|done].
Qed.

Lemma Term_cal_nan (t : Term) : Term_cal t S754_nan = S754_nan.
Proof. unfold Term_cal. by rewrite cal_loop_nan, double_mul_nan_r. Qed.

End Evaluation.

(** X16. [Polynomial::cal] (and [Polynomial_C::cal], which is the same loop)
    adds the values of the terms from left to right, starting from 0: the
    empty polynomial evaluates to 0; as soon as one term evaluates to NaN the
    result is NaN; and a polynomial that is not empty evaluates to NaN at
    NaN. *)
Theorem Polynomial_cal_nan (P : list Term) (x : double) :
  Polynomial_C_cal P x = Polynomial_cal P x /\
  Polynomial_cal Polynomial_default x = int_to_double 0 /\
  (forall t, Polynomial_cal (P ++ [t]) x
             = Double.add (Polynomial_cal P x) (Term_cal t x)) /\
  (Exists (fun t => Term_cal t x = S754_nan) P -> Polynomial_cal P x = S754_nan) /\
  (P <> [] -> Polynomial_cal P S754_nan = S754_nan).
Proof.
  unfold Polynomial_C_cal, Polynomial_cal. split; [done|]. split; [done|]. split.
  { intros t. by rewrite fold_left_app. }
  assert (Hex : forall acc,
            Exists (fun t => Term_cal t x = S754_nan) P ->
            fold_left (fun result t => Double.add result (Term_cal t x)) P acc
            = S754_nan).
  { intros acc Hex. revert acc.
    induction Hex as [t P Ht|t P _ IH]; intros acc; cbn [fold_left].
    - rewrite Ht, double_add_nan_r. apply cal_sum_nan.
    - apply IH. }
  split; [apply Hex|].
  intros Hne. destruct P as [|t P]; [done|]. cbn [fold_left].
  rewrite Term_cal_nan, double_add_nan_r. apply cal_sum_nan.
Qed.

(** ** class Polynomial_C *)

Section FixedSize.

Lemma sorted_lookup_le (l : list Z) :
  StronglySorted Z.le l ->
  forall (i j : nat) (a b : Z),
    l !! i = Some a -> l !! j = Some b -> (i <= j)%nat -> a <= b.
Proof.
  induction 1 as [|x l Hl IH Hx]; intros i j a b Hi Hj Hij; [done|].
  destruct i as [|i], j as [|j]; simpl in *.
  - assert (a = b) by congruence. lia.
  - injection Hi as <-. rewrite Forall_forall in Hx.
    apply Hx. by eapply list_elem_of_lookup_2.
  - lia.
  - eapply IH; [exact Hi|exact Hj|lia].
Qed.

End FixedSize.

(** X17. A [Polynomial_C] built from an array of [SIZE] terms has size
    [SIZE]; [operator[]] returns a term exactly for the indices below
    [SIZE] (anything else is undefined); and the exponents read at ascending
    indices are ascending. *)
Theorem Polynomial_C_indexing (arr : list Term) :
  Forall (fun u => in_int (exp u) = true) arr ->
  let P := Polynomial_C_new arr in
  Polynomial_C_size P = length arr /\
  (forall i, (i < length arr)%nat <-> exists t, Polynomial_C_at P i = Ok t) /\
  (forall i, (length arr <= i)%nat <-> Polynomial_C_at P i = Undefined) /\
  (forall i j t u,
     Polynomial_C_at P i = Ok t -> Polynomial_C_at P j = Ok u ->
     (i <= j)%nat -> exp t <= exp u).
Proof.
  intros Hint P. unfold Polynomial_C_size, Polynomial_C_at.
  assert (Hlen : length P = length arr)
    by (unfold P, Polynomial_C_new; by rewrite sort_by_exp_perm).
  split; [done|]. rewrite <- Hlen. split; [|split].
  - intros i. rewrite <- lookup_lt_is_Some. split.
    + intros [t Ht]. exists t. by rewrite Ht.
    + intros [t Ht]. destruct (P !! i) as [t'|]; [by exists t'|done].
  - intros i. rewrite <- lookup_ge_None. split.
    + by intros ->.
    + by destruct (P !! i).
  - intros i j t u Hi Hj Hij.
    destruct (P !! i) as [t'|] eqn:Hti; [|done]. injection Hi as ->.
    destruct (P !! j) as [u'|] eqn:Huj; [|done]. injection Hj as ->.
    apply (sorted_lookup_le (exp <$> P)) with (i := i) (j := j).
    + by apply sort_by_exp_sorted.
    + by rewrite list_lookup_fmap, Hti.
    + by rewrite list_lookup_fmap, Huj.
    + done.
Qed.

Lemma Polynomial_C_indexing_witness :
  let P := Polynomial_C_new [Term_new d_one 4; Term_new d_half 0; Term_new d_two 1] in
  Polynomial_C_size P = 3%nat.
Proof.
  intros P.
  exact (proj1 (Polynomial_C_indexing
                  [Term_new d_one 4; Term_new d_half 0; Term_new d_two 1]
                  ltac:(repeat constructor))).
Defined.

(** ** Assignment and moved operands, on objects *)

Section ObjectsMore.

Implicit Types (s : store) (p q : loc).

Lemma move_construct_spec s q (Q : list Term) :
  s !! q = Some Q ->
  move_construct q s = Ok (fresh (dom s), <[q := []]> (<[fresh (dom s) := Q]> s)).
Proof. intros Hq. unfold move_construct. by rewrite Hq. Qed.

End ObjectsMore.

(** X18. Assignment [p = q] of objects leaves the object at [p] with the terms of the
    one at [q] and every other object, the argument included, as it was; an
    object assigned to itself is left as it was. *)
Theorem call_assign_copies (s : store) (p q : loc) (P Q : list Term) :
  s !! p = Some P -> s !! q = Some Q ->
  call_assign p q s = Ok (<[p := Q]> s) /\
  (p = q -> call_assign p q s = Ok s).
Proof.
  intros Hp Hq.
  assert (Hassign : call_assign p q s = Ok (<[p := Q]> s)).
  { unfold call_assign. rewrite Hq. simpl.
    set (o := fresh (dom s)).
    assert (Ho : s !! o = None) by apply not_elem_of_dom, is_fresh.
    assert (Hpo : p <> o) by congruence.
    rewrite lookup_insert_ne, Hp by done.
    rewrite delete_insert_eq, delete_insert_ne by done.
    by rewrite delete_insert_id. }
  split; [exact Hassign|].
  intros ->. rewrite Hassign. f_equal. apply insert_id. congruence.
Qed.

Lemma call_assign_copies_witness :
  let s : store := {[ 1%positive := [Term_new d_one 5]; 2%positive := [Term_new d_half 0] ]} in
  call_assign 1%positive 2%positive s = Ok (<[1%positive := [Term_new d_half 0]]> s).
Proof.
  intros s.
  exact (proj1 (call_assign_copies s 1%positive 2%positive
                  [Term_new d_one 5] [Term_new d_half 0] eq_refl eq_refl)).
Defined.

(** X19. [p - std::move(q)] on objects: the parameter takes the vector of the
    argument, so the object at [q] is left empty and every other existing
    object as it was; the new object returned holds [P - Q], or, when the
    argument is the left operand itself, [{} - P]. *)
Theorem call_sub_rvalue_empties (s : store) (p q : loc) (P Q R : list Term) :
  s !! p = Some P -> s !! q = Some Q ->
  Polynomial_sub (if decide (p = q) then [] else P) Q = Ok R ->
  exists r, call_sub_rvalue p q s = Ok (r, <[r := R]> (<[q := []]> s)) /\
            s !! r = None.
Proof.
  intros Hp Hq HR. unfold call_sub_rvalue.
  rewrite (move_construct_spec s q Q Hq). simpl.
  set (o := fresh (dom s)).
  assert (Ho : s !! o = None) by apply not_elem_of_dom, is_fresh.
  assert (Hqo : q <> o) by congruence.
  assert (Hpo : p <> o) by congruence.
  rewrite lookup_insert_ne, lookup_insert_eq by done.
  rewrite (negate_in_place_spec _ 0 o _ Q);
    [|by rewrite lookup_insert_ne, lookup_insert_eq|lia].
  rewrite drop_0. simpl. unfold Polynomial_sub in HR.
  destruct (negate_all Q) as [Q'| |]; [|done|done]. simpl in HR |- *.
  set (s2 := <[o := Q']> (<[q := []]> (<[o := Q]> s))).
  assert (Hs2p : s2 !! p = Some (if decide (p = q) then [] else P)).
  { unfold s2. rewrite lookup_insert_ne by done.
    destruct (decide (p = q)) as [->|Hne].
    - by rewrite lookup_insert_eq.
    - by rewrite !lookup_insert_ne. }
  rewrite (call_add_spec s2 p o _ Q' Hs2p); [|apply lookup_insert_eq].
  rewrite HR. simpl.
  set (r := fresh (dom s2)).
  assert (Hr2 : s2 !! r = None) by apply not_elem_of_dom, is_fresh.
  assert (Hro : o <> r).
  { intros Heq. rewrite <- Heq in Hr2. unfold s2 in Hr2.
    by rewrite lookup_insert_eq in Hr2. }
  exists r. split.
  - do 2 f_equal. rewrite delete_insert_ne by done. f_equal.
    unfold s2. rewrite delete_insert_eq, delete_insert_ne by done.
    by rewrite delete_insert_id.
  - unfold s2 in Hr2. rewrite lookup_insert_ne in Hr2 by done.
    destruct (decide (q = r)) as [<-|Hqr].
    + by rewrite lookup_insert_eq in Hr2.
    + by rewrite !lookup_insert_ne in Hr2.
Qed.

Lemma call_sub_rvalue_empties_witness :
  let P := [Term_new d_one 5] in
  let s : store := {[ 1%positive := P ]} in
  exists r, call_sub_rvalue 1%positive 1%positive s
            = Ok (r, <[r := [Term_new (int_to_double (-1)) 5]]> (<[1%positive := []]> s)) /\
            s !! r = None.
Proof.
  intros P s.
  exact (call_sub_rvalue_empties s 1%positive 1%positive P P
           [Term_new (int_to_double (-1)) 5] eq_refl eq_refl eq_refl).
Defined.

(** ** insert and operator+ *)

Section InsertAdd.

Lemma Polynomial_insert_as_add (t : Term) (P : list Term) :
  in_int (exp t) = true ->
  Forall (fun it => in_int (exp it) = true) P ->
  Forall (fun it => exp it <> exp t) P ->
  Polynomial_insert t P =
  Ok (if existsb (fun it => exp it >? exp t) P then merge_terms P [t] else P) /\
  (existsb (fun it => exp it >? exp t) P = false -> merge_terms P [t] = P ++ [t]).
Proof.
  intros Ht Hint Hne.
  induction Hint as [|it rest Hit Hint IH]; [done|].
  apply Forall_cons in Hne as [Hit_ne Hne]. destruct (IH Hne) as [IH1 IH2].
  rewrite Polynomial_insert_cons, merge_terms_cons by done. simpl existsb.
  destruct (Z.eqb_spec (exp it) (exp t)) as [|_]; [done|].
  destruct (Z.gtb_spec (exp it) (exp t)) as [Hgt|Hngt]; simpl orb.
  - destruct (Z.ltb_spec (exp it) (exp t)); [lia|]. by rewrite merge_terms_nil_r.
  - destruct (Z.ltb_spec (exp it) (exp t)); [|lia]. rewrite IH1. simpl.
    split; [by destruct (existsb _ rest)|].
    intros Hnone. by rewrite IH2.
Qed.

End InsertAdd.

(** X20. How [insert] relates to adding a one-term polynomial, for a term
    [t] whose exponent no term of [P] has: when some term of [P] has a
    greater exponent, [P.insert(t)] is [P + {t}]; when none has, [P + {t}]
    is [P] with [t] appended, whereas [P.insert(t)] is [P]. *)
Theorem Polynomial_insert_vs_add (t : Term) (P : list Term) :
  in_int (exp t) = true ->
  Forall (fun it => in_int (exp it) = true) P ->
  Forall (fun it => exp it <> exp t) P ->
  (Exists (fun it => exp t < exp it) P ->
     Polynomial_insert t P = Polynomial_add P [t]) /\
  (Forall (fun it => exp it < exp t) P ->
     Polynomial_add P [t] = Ok (P ++ [t]) /\ Polynomial_insert t P = Ok P).
Proof.
  intros Ht Hint Hne.
  destruct (Polynomial_insert_as_add t P Ht Hint Hne) as [Hins Happ].
  rewrite Polynomial_add_merge. split.
  - intros Hex. rewrite Hins.
    assert (Hb : existsb (fun it => exp it >? exp t) P = true).
    { apply existsb_exists. apply Exists_exists in Hex as (it & Hin & Hlt).
      exists it. split; [by apply list_elem_of_In|lia]. }
    by rewrite Hb.
  - intros Hall.
    assert (Hb : existsb (fun it => exp it >? exp t) P = false).
    { clear -Hall. induction Hall as [|it P Hit _ IH]; [done|].
      simpl. rewrite IH. by destruct (Z.gtb_spec (exp it) (exp t)); [lia|]. }
    rewrite Hins, Hb. by rewrite Happ.
Qed.

Lemma Polynomial_insert_vs_add_witness :
  let P := [Term_new d_two 0; Term_new d_one 4] in
  let t := Term_new d_half 3 in
  Polynomial_insert t P = Polynomial_add P [t].
Proof.
  intros P t.
  apply (Polynomial_insert_vs_add t P).
  - reflexivity.
  - repeat constructor.
  - repeat constructor; discriminate.
  - apply Exists_cons_tl, Exists_cons_hd. simpl. lia.
Defined.
